(** * Blood on the Clocktower: the game service (src/game_service.py)

    A shallow embedding of [GameService] and of the pydantic models of
    src/models.py, followed by the properties of the session life cycle,
    the role assignment, the night order and the read views. *)

From Stdlib Require Import ZArith.
From stdpp Require Import base strings list gmap fin_maps pretty sorting.

(** ** src/models.py *)

(** [class CharacterType(str, Enum)] *)
Inductive CharacterType := TOWNSFOLK | OUTSIDER | MINION | DEMON.

#[global] Instance CharacterType_eq_dec : EqDecision CharacterType.
Proof. solve_decision. Defined.

(** The value of each member, a [str]. *)
Definition CharacterType_value (ty : CharacterType) : string :=
  match ty with
  | TOWNSFOLK => "townsfolk"
  | OUTSIDER => "outsiders"
  | MINION => "minions"
  | DEMON => "demons"
  end.

(** What pydantic does with a [str] given for a field of type
    [Optional[CharacterType]]: the member with that value, or no member and a
    [ValidationError]. *)
Definition CharacterType_of_value (s : string) : option CharacterType :=
  if decide (s = "townsfolk") then Some TOWNSFOLK
  else if decide (s = "outsiders") then Some OUTSIDER
  else if decide (s = "minions") then Some MINION
  else if decide (s = "demons") then Some DEMON
  else None.

(** [class Character(BaseModel)] *)
Module Character.
Record t := mk {
  id : string;
  name : string;
  ability : string;
  first_night : Z;
  other_nights : Z;
  type : option CharacterType
}.
End Character.

(** [class Player(BaseModel)] *)
Module Player.
Record t := mk {
  id : string;
  name : string;
  character : option Character.t;
  is_storyteller : bool
}.

(** [player.character = character] *)
Definition set_character (c : Character.t) (p : t) : t :=
  {| id := id p; name := name p; character := Some c;
     is_storyteller := is_storyteller p |}.
End Player.

(** [class Game(BaseModel)] *)
Module Game.
Record t := mk {
  id : string;
  edition : string;
  players : list Player.t;
  started : bool;
  player_count : option Z
}.

Definition set_players (f : list Player.t → list Player.t) (g : t) : t :=
  {| id := id g; edition := edition g; players := f (players g);
     started := started g; player_count := player_count g |}.

(** [game.started = v] *)
Definition set_started (v : bool) (g : t) : t :=
  {| id := id g; edition := edition g; players := players g;
     started := v; player_count := player_count g |}.

(** [game.player_count = v] *)
Definition set_player_count (v : Z) (g : t) : t :=
  {| id := id g; edition := edition g; players := players g;
     started := started g; player_count := Some v |}.
End Game.

(** ** The dicts the read views return *)

(** [{"name": ..., "ability": ..., "order": ...}] *)
Module NightEntry.
Record t := mk {
  name : string;
  ability : string;
  order : Z
}.
End NightEntry.

(** [{"first_night": [...], "other_nights": [...]}] *)
Module NightOrder.
Record t := mk {
  first_night : list NightEntry.t;
  other_nights : list NightEntry.t
}.
End NightOrder.

(** [{"name": ..., "character": ..., "ability": ..., "type": ...}] *)
Module PlayerOverview.
Record t := mk {
  name : string;
  character : option string;
  ability : option string;
  type : option CharacterType
}.
End PlayerOverview.

(** [{"game_id": ..., "edition": ..., "started": ..., "players": ...,
     "night_order": ...}] *)
Module Overview.
Record t := mk {
  game_id : string;
  edition : string;
  started : bool;
  players : list PlayerOverview.t;
  night_order : option NightOrder.t
}.
End Overview.

(** ** data/editions.json, as [json.load] returns it

    The file itself is data, not code; the service reads it once and never
    writes to it.  An edition is a JSON object with the keys ["name"],
    ["characters"] (category to list of character objects) and ["setup"]
    (player count, as a decimal string, to a distribution).  A distribution is a
    JSON object from category to count, iterated in the order of the file, so it
    is kept as the list of its items. *)
Record CharacterEntry := {
  entry_id : string;
  entry_name : string;
  entry_ability : string;
  entry_first_night : Z;
  entry_other_nights : Z
}.

Record EditionData := {
  edition_name : string;
  edition_characters : gmap string (list CharacterEntry);
  edition_setup : gmap string (list (string * Z))
}.

(** The [Character] with the fields of the JSON object [char] and the
    category [ty]. *)
Definition character_of (ty : CharacterType) (char : CharacterEntry) : Character.t :=
  Character.mk (entry_id char) (entry_name char) (entry_ability char)
    (entry_first_night char) (entry_other_nights char) (Some ty).

(** ** Exceptions

    Every [raise] of the service is a [ValueError]; the constructors of
    [message] are its messages, one per [raise] statement.  [KeyError] is a
    failed subscript of a dict, [ValidationError] is pydantic's, and
    [IndexError] a failed subscript of a list. *)
Inductive message :=
| EditionNotFound (edition : string)
    (* f"Edition {edition} nicht gefunden" *)
| GameNotFound (game_id : string)
    (* f"Spiel {game_id} nicht gefunden" *)
| AlreadyStarted
    (* "Spiel hat bereits begonnen" *)
| PlayerCountMismatch (expected : Z) (present : nat)
    (* f"Spieleranzahl stimmt nicht ueberein. Erwartet: ..., Vorhanden: ..." *)
| InvalidPlayerCount (player_count : Z)
    (* f"Ungueltige Spielerzahl: {player_count}" *)
| NotFoundOrNotStarted
    (* "Spiel nicht gefunden oder noch nicht gestartet" *)
| OverviewGameNotFound
    (* "Spiel nicht gefunden" *)
| StorytellerOnly
    (* "Nur der Erzaehler kann diese Ansicht sehen" *)
| SampleOutOfRange.
    (* random.sample: "Sample larger than population or is negative" *)

Inductive exn :=
| ValueError (msg : message)
| KeyError (key : string)
| ValidationError
| IndexError.

(** The error taxonomy of the specification (section 7), by [raise] site. *)
Inductive ErrorKind := NotFound | InvalidState | InvalidArgument | Forbidden | Internal.

Definition error_kind (e : exn) : ErrorKind :=
  match e with
  | ValueError (EditionNotFound _) => NotFound
  | ValueError (GameNotFound _) => NotFound
  | ValueError OverviewGameNotFound => NotFound
  | ValueError AlreadyStarted => InvalidState
  | ValueError (PlayerCountMismatch _ _) => InvalidState
  | ValueError NotFoundOrNotStarted => InvalidState
  | ValueError (InvalidPlayerCount _) => InvalidArgument
  | ValueError StorytellerOnly => Forbidden
  | _ => Internal
  end.

(** ** The state of the process and the monad of the service

    [games] is [GameService.games]; [random] is the state of the [random]
    module, the numbers its generator will give from now on (zero once the list
    is used up).  A computation returns a value or raises, and in both cases
    leaves a state: what was written before a [raise] stays written. *)
Record World := {
  games : gmap string Game.t;
  random : list nat
}.

Definition set_games (f : gmap string Game.t → gmap string Game.t) (w : World) : World :=
  {| games := f (games w); random := random w |}.

Inductive result (A : Type) :=
| Ok (a : A)
| Raise (e : exn).
Arguments Ok {A} a.
Arguments Raise {A} e.

Definition M (A : Type) : Type := World → result A * World.

#[global] Instance M_ret : MRet M := λ A a w, (Ok a, w).
#[global] Instance M_bind : MBind M := λ A B f m w,
  match m w with
  | (Ok a, w') => f a w'
  | (Raise e, w') => (Raise e, w')
  end.

Definition raise {A} (e : exn) : M A := λ w, (Raise e, w).

(** [self.games.get(game_id)] *)
Definition games_get (game_id : string) : M (option Game.t) :=
  λ w, (Ok (games w !! game_id), w).

(** [self.games[game_id] = game] *)
Definition games_setitem (game_id : string) (game : Game.t) : M unit :=
  λ w, (Ok (), set_games <[game_id := game]> w).

(** A write to the [Game] object that [self.games] holds under [game_id]. *)
Definition mutate (game_id : string) (f : Game.t → Game.t) : M unit :=
  λ w, (Ok (), set_games (alter f game_id) w).

(** The [Game] object a local variable refers to, as it is now: the one
    [self.games] holds under [game_id]; [game] is what the variable's object
    was when it was fetched. *)
Definition deref (game_id : string) (game : Game.t) : M Game.t :=
  λ w, (Ok (default game (games w !! game_id)), w).

(** [random._randbelow(n)]: the next number of the generator, below [n]. *)
Definition randbelow (n : nat) : M nat :=
  λ w, match random w with
       | [] => (Ok 0, w)
       | r :: rs => (Ok (r `mod` n), {| games := games w; random := rs |})
       end.

Fixpoint mapM {A B} (f : A → M B) (l : list A) : M (list B) :=
  match l with
  | [] => mret []
  | x :: l' => y ← f x; ys ← mapM f l'; mret (y :: ys)
  end.

(** ** The library functions the service calls *)

(** [random.sample(population, k)]: [k] elements taken from [k] different
    positions of [population].  The loop is the one of CPython's
    [Random.sample] on a copy of the population,
    [j = randbelow(n-i); result[i] = pool[j]; pool[j] = pool[n-i-1]];
    its other branch (a set of the positions already taken) returns lists of
    the same kind, and every list of that kind is a result of this loop
    ([random_sample_complete] below).  [m] is [n-i], the length of the part of
    the pool still to draw from. *)
Fixpoint sample_loop {A} (k m : nat) (pool : list A) : M (list A) :=
  match k with
  | O => mret []
  | S k' =>
    j ← randbelow m;
    match pool !! j, pool !! (m - 1) with
    | Some x, Some y =>
      rest ← sample_loop k' (m - 1) (<[j := y]> pool);
      mret (x :: rest)
    | _, _ => raise IndexError
    end
  end.

Definition random_sample {A} (population : list A) (k : Z) : M (list A) :=
  let n := length population in
  if decide (0 ≤ k ≤ Z.of_nat n)%Z then sample_loop (Z.to_nat k) n population
  else raise (ValueError SampleOutOfRange).

(** [x[i], x[j] = x[j], x[i]] *)
Definition swap {A} (x : list A) (i j : nat) : list A :=
  match x !! i, x !! j with
  | Some a, Some b => <[j := a]> (<[i := b]> x)
  | _, _ => x
  end.

(** [random.shuffle(x)]:
    [for i in reversed(range(1, len(x))): j = randbelow(i + 1); swap i j].
    Every permutation of [x] is a result ([random_shuffle_complete] below). *)
Fixpoint shuffle_loop {A} (i : nat) (x : list A) : M (list A) :=
  match i with
  | O => mret x
  | S i' => j ← randbelow (S i); shuffle_loop i' (swap x i j)
  end.

Definition random_shuffle {A} (x : list A) : M (list A) :=
  shuffle_loop (length x - 1) x.

(** [sorted(l, key=key)] for integer keys.  Python's sort is stable, and a
    stable sort has one possible result, that of the insertion sort here: an
    element goes in front of the first element, among those that followed it,
    whose key is not smaller. *)
Fixpoint insert_by {A} (key : A → Z) (x : A) (l : list A) : list A :=
  match l with
  | [] => [x]
  | y :: l' => if decide (key x ≤ key y)%Z then x :: y :: l' else y :: insert_by key x l'
  end.

Definition sorted {A} (key : A → Z) (l : list A) : list A :=
  foldr (insert_by key) [] l.

(** ** src/game_service.py *)
Section GameService.
Context (editions_data : gmap string EditionData).

(** [create_game]; [game_id] and [player_id] are the two
    [str(uuid.uuid4())[:8]] it draws. *)
Definition create_game (game_id player_id : string)
    (edition storyteller_name : string) : M Game.t :=
  match editions_data !! edition with
  | None => raise (ValueError (EditionNotFound edition))
  | Some _ =>
    let storyteller := Player.mk player_id storyteller_name None true in
    let game := Game.mk game_id edition [storyteller] false None in
    _ ← games_setitem game_id game;
    mret game
  end.

(** [get_game] *)
Definition get_game (game_id : string) : M (option Game.t) := games_get game_id.

(** [join_game]; [player_id] is the [str(uuid.uuid4())[:8]] it draws. *)
Definition join_game (player_id : string) (game_id player_name : string) : M Player.t :=
  game ← games_get game_id;
  match game with
  | None => raise (ValueError (GameNotFound game_id))
  | Some game =>
    if Game.started game then raise (ValueError AlreadyStarted)
    else
      let player := Player.mk player_id player_name None false in
      _ ← mutate game_id (Game.set_players (λ ps, ps ++ [player]));
      mret player
  end.

(** [_get_role_distribution]; [str(player_count)] is [pretty player_count]. *)
Definition _get_role_distribution (edition : string) (player_count : Z)
    : M (list (string * Z)) :=
  match editions_data !! edition with
  | None => raise (KeyError edition)
  | Some edition_data =>
    match edition_setup edition_data !! pretty player_count with
    | None => raise (ValueError (InvalidPlayerCount player_count))
    | Some distribution => mret distribution
    end
  end.

(** [Character(id=char["id"], ..., type=char_type)] *)
Definition make_character (char_type : string) (char : CharacterEntry) : M Character.t :=
  match CharacterType_of_value char_type with
  | None => raise ValidationError
  | Some ty => mret (character_of ty char)
  end.

(** The loop [for char_type, count in distribution.items()] of
    [_select_random_characters], from the value [selected] has before it. *)
Fixpoint select_loop (characters_data : gmap string (list CharacterEntry))
    (distribution : list (string * Z)) (selected : list Character.t)
    : M (list Character.t) :=
  match distribution with
  | [] => mret selected
  | (char_type, count) :: distribution' =>
    match characters_data !! char_type with
    | None => raise (KeyError char_type)
    | Some available =>
      chosen ← random_sample available (Z.min count (Z.of_nat (length available)));
      new ← mapM (make_character char_type) chosen;
      select_loop characters_data distribution' (selected ++ new)
    end
  end.

(** [_select_random_characters] *)
Definition _select_random_characters (edition : string)
    (distribution : list (string * Z)) : M (list Character.t) :=
  match editions_data !! edition with
  | None => raise (KeyError edition)
  | Some edition_data => select_loop (edition_characters edition_data) distribution []
  end.

(** [[p for p in game.players if not p.is_storyteller]].  The list holds the
    [Player] objects of [game.players] themselves, not copies; an object is
    known here by its position in [game.players], where it occurs once. *)
Definition non_storyteller_players (game : Game.t) : list (nat * Player.t) :=
  filter (λ ip, Player.is_storyteller ip.2 = false) (imap pair (Game.players game)).

(** [player.character = character], for the player at position [i]. *)
Definition assign (players : list Player.t) (ic : nat * Player.t * Character.t)
    : list Player.t :=
  alter (Player.set_character ic.2) ic.1.1 players.

(** [start_game] *)
Definition start_game (game_id : string) (player_count : Z) : M Game.t :=
  game ← games_get game_id;
  match game with
  | None => raise (ValueError (GameNotFound game_id))
  | Some game =>
    if Game.started game then raise (ValueError AlreadyStarted)
    else
      let players := non_storyteller_players game in
      if decide (Z.of_nat (length players) ≠ player_count) then
        raise (ValueError (PlayerCountMismatch player_count (length players)))
      else
        distribution ← _get_role_distribution (Game.edition game) player_count;
        characters ← _select_random_characters (Game.edition game) distribution;
        characters ← random_shuffle characters;
        _ ← mutate game_id
              (Game.set_players (λ ps, foldl assign ps (zip players characters)));
        _ ← mutate game_id (Game.set_started true);
        _ ← mutate game_id (Game.set_player_count player_count);
        deref game_id game
  end.

(** [get_night_order] *)
Definition get_night_order (game_id : string) : M NightOrder.t :=
  game ← games_get game_id;
  match game with
  | None => raise (ValueError NotFoundOrNotStarted)
  | Some game =>
    if negb (Game.started game) then raise (ValueError NotFoundOrNotStarted)
    else
      let characters_in_game := omap Player.character (Game.players game) in
      let first_night :=
        sorted Character.first_night
          (filter (λ c, 0 < Character.first_night c)%Z characters_in_game) in
      let other_nights :=
        sorted Character.other_nights
          (filter (λ c, 0 < Character.other_nights c)%Z characters_in_game) in
      mret (NightOrder.mk
              ((λ c, NightEntry.mk (Character.name c) (Character.ability c)
                       (Character.first_night c)) <$> first_night)
              ((λ c, NightEntry.mk (Character.name c) (Character.ability c)
                       (Character.other_nights c)) <$> other_nights))
  end.

(** [get_player_role] *)
Definition get_player_role (game_id player_id : string) : M (option Character.t) :=
  game ← games_get game_id;
  match game with
  | None => mret None
  | Some game =>
    match list_find (λ player, Player.id player = player_id) (Game.players game) with
    | Some (_, player) => mret (Player.character player)
    | None => mret None
    end
  end.

(** One item of [players_overview]. *)
Definition player_overview (p : Player.t) : PlayerOverview.t :=
  PlayerOverview.mk (Player.name p)
    (Character.name <$> Player.character p)
    (Character.ability <$> Player.character p)
    (Player.character p ≫= Character.type).

(** [get_storyteller_overview] *)
Definition get_storyteller_overview (game_id player_id : string) : M Overview.t :=
  game ← games_get game_id;
  match game with
  | None => raise (ValueError OverviewGameNotFound)
  | Some game =>
    let storyteller :=
      list_find (λ p, Player.id p = player_id ∧ Player.is_storyteller p = true)
        (Game.players game) in
    match storyteller with
    | None => raise (ValueError StorytellerOnly)
    | Some _ =>
      let players_overview :=
        player_overview <$>
          filter (λ p, Player.is_storyteller p = false) (Game.players game) in
      night_order ←
        (if Game.started game
         then night_order ← get_night_order game_id; mret (Some night_order)
         else mret None);
      mret (Overview.mk (Game.id game) (Game.edition game) (Game.started game)
              players_overview night_order)
    end
  end.

End GameService.

(** ** Vocabulary of the properties *)

(** [chosen] holds the elements of [population] at the positions [positions],
    which are all different: a draw without replacement. *)
Definition drawn_at {A} (population : list A) (positions : list nat)
    (chosen : list A) : Prop :=
  NoDup positions ∧ Forall2 (λ i x, population !! i = Some x) positions chosen.

(** What one item [(char_type, count)] of a distribution contributes to the
    selection: [min(count, available)] characters, made from entries drawn
    without replacement from the pool of the category and tagged with it. *)
Definition category_chunk (characters_data : gmap string (list CharacterEntry))
    (item : string * Z) (chunk : list Character.t) : Prop :=
  ∃ available positions chosen,
    characters_data !! item.1 = Some available ∧
    (0 ≤ item.2)%Z ∧
    length chosen = Z.to_nat item.2 `min` length available ∧
    drawn_at available positions chosen ∧
    Forall2 (λ char c, ∃ ty, CharacterType_of_value item.1 = Some ty ∧
                             c = character_of ty char) chosen chunk.

(** An item of a distribution that [_select_random_characters] can serve: the
    category is one of the edition and one of [CharacterType], the count is not
    negative. *)
Definition item_ok (characters_data : gmap string (list CharacterEntry))
    (item : string * Z) : Prop :=
  is_Some (characters_data !! item.1) ∧
  is_Some (CharacterType_of_value item.1) ∧
  (0 ≤ item.2)%Z.

(** The players of a game once [start_game] has dealt [characters]: the
    players that are not the storyteller receive them in order, as long as
    there are some left. *)
Fixpoint deal (players : list Player.t) (characters : list Character.t)
    : list Player.t :=
  match players with
  | [] => []
  | p :: players' =>
    if Player.is_storyteller p then p :: deal players' characters
    else
      match characters with
      | [] => p :: players'
      | c :: characters' => Player.set_character c p :: deal players' characters'
      end
  end.

(** The game object as [start_game] leaves it. *)
Definition started_game (game : Game.t) (player_count : Z)
    (characters : list Character.t) : Game.t :=
  Game.set_player_count player_count
    (Game.set_started true
       (Game.set_players (λ ps, deal ps characters) game)).

(** The players of a game that are not the storyteller, in join order. *)
Definition participants (game : Game.t) : list Player.t :=
  filter (λ p, Player.is_storyteller p = false) (Game.players game).

(** The identifiers of all the characters of an edition, category after
    category. *)
Definition catalog_ids (edition_data : EditionData) : list string :=
  mjoin ((λ item, entry_id <$> item.2) <$>
           map_to_list (edition_characters edition_data)).

(** An edition as the catalog is meant to be: no identifier names two
    characters.  (That no category occurs twice in a distribution comes with
    the JSON object it is read from; the list of items kept here has to be told
    so.) *)
Definition edition_ok (edition_data : EditionData) : Prop :=
  NoDup (catalog_ids edition_data) ∧
  map_Forall (λ _ distribution, NoDup distribution.*1) (edition_setup edition_data).

#[global] Instance edition_ok_dec edition_data : Decision (edition_ok edition_data).
Proof. unfold edition_ok. apply _. Defined.

(** A computation that leaves [self.games] as it found it, whatever it
    returns or raises. *)
Definition keeps_games {A} (m : M A) : Prop :=
  ∀ w r w', m w = (r, w') → games w' = games w.

(** The call [m] in state [w] raises [e], an error of the kind [kind], and
    leaves the state as it was. *)
Definition raises {A} (m : M A) (w : World) (e : exn) (kind : ErrorKind) : Prop :=
  m w = (Raise e, w) ∧ error_kind e = kind.

(** The characters of a game, in the join order of the players that have
    one. *)
Definition characters_in_game (game : Game.t) : list Character.t :=
  omap Player.character (Game.players game).

(** [l] is the night list of [characters] for the rank [key]: it holds the
    characters of positive rank and no others, ascending by rank, those of the
    same rank in the order they have in [characters]. *)
Definition night_list (key : Character.t → Z) (characters l : list Character.t)
    : Prop :=
  l ≡ₚ filter (λ c, 0 < key c)%Z characters ∧
  Sorted (λ a b, key a ≤ key b)%Z l ∧
  ∀ r, (0 < r)%Z → filter (λ c, key c = r) l = filter (λ c, key c = r) characters.

(** What every game of a reachable state satisfies: its first player is the
    storyteller and has no character, no other player is a storyteller, and
    nobody has a character before the game is started. *)
Definition game_ok (game : Game.t) : Prop :=
  (∃ storyteller others,
      Game.players game = storyteller :: others ∧
      Player.is_storyteller storyteller = true ∧
      Player.character storyteller = None ∧
      Forall (λ p, Player.is_storyteller p = false) others) ∧
  (Game.started game = false →
   Forall (λ p, Player.character p = None) (Game.players game)).

Section Reachable.
Context (editions_data : gmap string EditionData).

(** The assignment engine as [start_game] runs it: the distribution of the
    player count, the selection, the shuffle. *)
Definition draw_characters (edition : string) (player_count : Z)
    : M (list Character.t) :=
  distribution ← _get_role_distribution editions_data edition player_count;
  characters ← _select_random_characters editions_data edition distribution;
  random_shuffle characters.

(** The states of the process: it starts with no game and some state of the
    random generator, and then serves calls of the three mutating operations,
    with any arguments and any identifiers drawn. *)
Inductive reachable : World → Prop :=
| reachable_init random :
    reachable {| games := ∅; random := random |}
| reachable_create_game w game_id player_id edition storyteller_name :
    reachable w →
    reachable (create_game editions_data game_id player_id edition storyteller_name w).2
| reachable_join_game w player_id game_id player_name :
    reachable w →
    reachable (join_game player_id game_id player_name w).2
| reachable_start_game w game_id player_count :
    reachable w →
    reachable (start_game editions_data game_id player_count w).2.

End Reachable.

(** ** A small catalog and three sessions, for the examples

    The scenario of the specification: Alice creates a session of the edition
    "trouble-brewing", Bob and Carol join, and the session is started for two
    players.  In a second session Dan, Erin and Frank join; the distribution
    for three players asks for two outsiders where the catalog has one.  In a
    third session Ivy joins alone; the distribution for one player names a
    category that the catalog does not have. *)
Module Scenario.

Definition entry (id name : string) (first_night other_nights : Z) : CharacterEntry :=
  Build_CharacterEntry id name ("The " +:+ name +:+ " acts.") first_night other_nights.

Definition trouble_brewing : EditionData := {|
  edition_name := "Trouble Brewing";
  edition_characters :=
    list_to_map
      [("townsfolk", [entry "washerwoman" "Washerwoman" 32 0;
                      entry "empath" "Empath" 36 53;
                      entry "monk" "Monk" 0 12]);
       ("outsiders", [entry "butler" "Butler" 38 67]);
       ("minions", [entry "poisoner" "Poisoner" 17 7]);
       ("demons", [entry "imp" "Imp" 0 24])];
  edition_setup :=
    list_to_map
      [("1", [("townsfolk", 1%Z); ("travellers", 1%Z)]);
       ("2", [("townsfolk", 1%Z); ("demons", 1%Z)]);
       ("3", [("outsiders", 2%Z); ("demons", 1%Z)])]
|}.

Definition editions_data : gmap string EditionData :=
  {[ "trouble-brewing" := trouble_brewing ]}.

Definition imp : Character.t := character_of DEMON (entry "imp" "Imp" 0 24).
Definition monk : Character.t := character_of TOWNSFOLK (entry "monk" "Monk" 0 12).
Definition butler : Character.t := character_of OUTSIDER (entry "butler" "Butler" 38 67).

Definition start : World := {| games := ∅; random := [5; 1; 2; 3; 4; 7; 6; 0; 9] |}.

Definition created : World :=
  (create_game editions_data "g1" "alice" "trouble-brewing" "Alice" start).2.

Definition joined : World :=
  (join_game "carol" "g1" "Carol" (join_game "bob" "g1" "Bob" created).2).2.

(** The first game before and after its start. *)
Definition game1 : Game.t :=
  Game.mk "g1" "trouble-brewing"
    [Player.mk "alice" "Alice" None true;
     Player.mk "bob" "Bob" None false;
     Player.mk "carol" "Carol" None false] false None.

Definition game1_started : Game.t := started_game game1 2 [imp; monk].

Definition started : World := (start_game editions_data "g1" 2 joined).2.

Definition joined3 : World :=
  (join_game "frank" "g2" "Frank"
     (join_game "erin" "g2" "Erin"
        (join_game "dan" "g2" "Dan"
           (create_game editions_data "g2" "gina" "trouble-brewing" "Gina"
              started).2).2).2).2.

(** The second game before and after its start. *)
Definition game2 : Game.t :=
  Game.mk "g2" "trouble-brewing"
    [Player.mk "gina" "Gina" None true;
     Player.mk "dan" "Dan" None false;
     Player.mk "erin" "Erin" None false;
     Player.mk "frank" "Frank" None false] false None.

Definition game2_started : Game.t := started_game game2 3 [butler; imp].

Definition started3 : World := (start_game editions_data "g2" 3 joined3).2.

Definition joined1 : World :=
  (join_game "ivy" "g3" "Ivy"
     (create_game editions_data "g3" "hank" "trouble-brewing" "Hank"
        started3).2).2.

End Scenario.

(** ** src/game_service.py: the catalog and the lookup of a game *)

(** [{"id": key, "name": value["name"]}] *)
Module EditionInfo.
Record t := mk {
  id : string;
  name : string
}.
End EditionInfo.

(** [{**char, "type": char_type}]: the keys of the catalog entry and the
    category under the key ["type"]. *)
Module TypedEntry.
Record t := mk {
  char : CharacterEntry;
  type : string
}.
End TypedEntry.

Section Catalog.
Context (editions_data : gmap string EditionData).

(** [get_editions].  The list follows the items of the dict; [editions_data]
    keeps the items of the file, not their order, so what is said of this list
    below is said of its elements only. *)
Definition get_editions : list EditionInfo.t :=
  (λ item, EditionInfo.mk item.1 (edition_name item.2)) <$> map_to_list editions_data.

(** [get_edition_characters] *)
Definition get_edition_characters (edition : string)
    : M (gmap string (list TypedEntry.t)) :=
  match editions_data !! edition with
  | None => raise (ValueError (EditionNotFound edition))
  | Some edition_data =>
    mret (map_imap
            (λ (char_type : string) (char_list : list CharacterEntry),
               Some (fmap (M:=list) (λ char, TypedEntry.mk char char_type) char_list))
            (edition_characters edition_data))
  end.

End Catalog.

(** ** src/main.py: the bodies of the endpoints

    An endpoint returns a body, raises an [HTTPException], or lets an
    exception through that no [except] clause of it catches. *)
Inductive detail :=
| str (e : exn)
    (* str(e), the message of the exception *)
| Literal (s : string).

Inductive response (A : Type) :=
| Respond (body : A)
| HTTPException (status_code : Z) (d : detail)
| Uncaught (e : exn)
| UncaughtStopIteration.
    (* next(...) on a generator that yields nothing *)
Arguments Respond {A} body.
Arguments HTTPException {A} status_code d.
Arguments Uncaught {A} e.
Arguments UncaughtStopIteration {A}.

(** What [except ValueError] catches: [ValueError] and pydantic's
    [ValidationError], a subclass of it; not [KeyError] or [IndexError]. *)
Definition is_ValueError (e : exn) : bool :=
  match e with
  | ValueError _ | ValidationError => true
  | KeyError _ | IndexError => false
  end.

(** [try: return m  except ValueError as e: raise HTTPException(status_code,
    detail=str(e))] *)
Definition except_ValueError {A} (status_code : Z) (m : M A)
    : World → response A * World :=
  λ w, match m w with
       | (Ok a, w') => (Respond a, w')
       | (Raise e, w') =>
         if is_ValueError e then (HTTPException status_code (str e), w')
         else (Uncaught e, w')
       end.

(** The bodies, one record per endpoint. *)
Module CreateBody.
Record t := mk {
  game_id : string;
  edition : string;
  storyteller_id : string;
  join_url : string
}.
End CreateBody.

Module GameBody.
Record t := mk {
  id : string;
  edition : string;
  started : bool;
  player_count : nat
}.
End GameBody.

Module JoinBody.
Record t := mk {
  player_id : string;
  name : string;
  game_id : string
}.
End JoinBody.

Module StartBody.
Record t := mk {
  game_id : string;
  started : bool;
  message : string
}.
End StartBody.

Module RoleBody.
Record t := mk {
  name : string;
  ability : string;
  type : option CharacterType
}.
End RoleBody.

Section Main.
Context (editions_data : gmap string EditionData).

(** [GET /api/editions] *)
Definition api_get_editions : World → response (list EditionInfo.t) * World :=
  λ w, (Respond (get_editions editions_data), w).

(** [GET /api/editions/{edition}/characters] *)
Definition api_get_edition_characters (edition : string)
    : World → response (gmap string (list TypedEntry.t)) * World :=
  except_ValueError 404 (get_edition_characters editions_data edition).

(** [POST /api/game/create]; the request is [(edition, storyteller_name)]. *)
Definition api_create_game (game_id player_id : string)
    (edition storyteller_name : string) : World → response CreateBody.t * World :=
  λ w, match create_game editions_data game_id player_id edition storyteller_name w with
       | (Ok game, w') =>
         match list_find (λ p, Player.is_storyteller p = true) (Game.players game) with
         | Some (_, storyteller) =>
           (Respond (CreateBody.mk (Game.id game) (Game.edition game)
                       (Player.id storyteller)
                       ("/join.html?game=" +:+ Game.id game)), w')
         | None => (UncaughtStopIteration, w')
         end
       | (Raise e, w') =>
         if is_ValueError e then (HTTPException 400 (str e), w')
         else (Uncaught e, w')
       end.

(** [GET /api/game/{game_id}] *)
Definition api_get_game (game_id : string) : World → response GameBody.t * World :=
  λ w, match get_game game_id w with
       | (Ok (Some game), w') =>
         (Respond (GameBody.mk (Game.id game) (Game.edition game) (Game.started game)
                     (length (filter (λ p, Player.is_storyteller p = false)
                                (Game.players game)))), w')
       | (Ok None, w') => (HTTPException 404 (Literal "Spiel nicht gefunden"), w')
       | (Raise e, w') => (Uncaught e, w')
       end.

(** [POST /api/game/{game_id}/join]; the request is [player_name]. *)
Definition api_join_game (player_id : string) (game_id player_name : string)
    : World → response JoinBody.t * World :=
  except_ValueError 400
    (player ← join_game player_id game_id player_name;
     mret (JoinBody.mk (Player.id player) (Player.name player) game_id)).

(** [POST /api/game/{game_id}/start]; the request is [player_count]. *)
Definition api_start_game (game_id : string) (player_count : Z)
    : World → response StartBody.t * World :=
  except_ValueError 400
    (game ← start_game editions_data game_id player_count;
     mret (StartBody.mk (Game.id game) true
             "Spiel gestartet! Rollen wurden verteilt.")).

(** [GET /api/player/{game_id}/{player_id}/role] *)
Definition api_get_player_role (game_id player_id : string)
    : World → response RoleBody.t * World :=
  λ w, match get_player_role game_id player_id w with
       | (Ok (Some character), w') =>
         (Respond (RoleBody.mk (Character.name character)
                     (Character.ability character) (Character.type character)), w')
       | (Ok None, w') => (HTTPException 404 (Literal "Rolle nicht gefunden"), w')
       | (Raise e, w') => (Uncaught e, w')
       end.

(** [GET /api/storyteller/{game_id}/{storyteller_id}/overview] *)
Definition api_get_storyteller_overview (game_id storyteller_id : string)
    : World → response Overview.t * World :=
  except_ValueError 403 (get_storyteller_overview game_id storyteller_id).

End Main.

(** ** Vocabulary of the further properties *)

(** What a game of a reachable state records: it is stored under its own
    identifier, its edition is one of the catalog, and its player count is
    there from the start on, the number of players that are not the
    storyteller. *)
Definition game_recorded (editions_data : gmap string EditionData)
    (key : string) (game : Game.t) : Prop :=
  Game.id game = key ∧
  is_Some (editions_data !! Game.edition game) ∧
  Game.player_count game =
    (if Game.started game then Some (Z.of_nat (length (participants game)))
     else None).

(** The number of characters a distribution yields from the pools of an
    edition: for each item the count or the size of the pool, whichever is
    smaller. *)
Definition supply (characters_data : gmap string (list CharacterEntry))
    (distribution : list (string * Z)) : nat :=
  sum_list ((λ item, Z.to_nat item.2 `min`
                     length (default [] (characters_data !! item.1)))
              <$> distribution).

(** The character [c] is one of the listing that [get_edition_characters]
    returns: made from an entry listed under the category of [c]. *)
Definition listed (listing : gmap string (list TypedEntry.t)) (c : Character.t)
    : Prop :=
  ∃ ty typed_list char,
    listing !! CharacterType_value ty = Some typed_list ∧
    TypedEntry.mk char (CharacterType_value ty) ∈ typed_list ∧
    c = character_of ty char.

(** ** Two more catalogs, for the examples of the further properties

    [Served] is the catalog of the scenario without the distribution for one
    player, so that every distribution can be served.  [Odd] has a category
    that is not one of [CharacterType], and an empty one. *)
Module Served.

Definition trouble_brewing : EditionData := {|
  edition_name := "Trouble Brewing";
  edition_characters := edition_characters Scenario.trouble_brewing;
  edition_setup :=
    list_to_map
      [("2", [("townsfolk", 1%Z); ("demons", 1%Z)]);
       ("3", [("outsiders", 2%Z); ("demons", 1%Z)])]
|}.

Definition editions_data : gmap string EditionData :=
  {[ "trouble-brewing" := trouble_brewing ]}.

Definition joined : World :=
  (join_game "carol" "g1" "Carol"
     (join_game "bob" "g1" "Bob"
        (create_game editions_data "g1" "alice" "trouble-brewing" "Alice"
           Scenario.start).2).2).2.

End Served.

Module Odd.

Definition edition : EditionData := {|
  edition_name := "Odd";
  edition_characters :=
    list_to_map
      [("townsfolk", [Scenario.entry "monk" "Monk" 0 12]);
       ("travellers", [Scenario.entry "thief" "Thief" 0 1]);
       ("outsiders", [])];
  edition_setup := ∅
|}.

Definition editions_data : gmap string EditionData := {[ "odd" := edition ]}.

End Odd.

#[global] Instance item_ok_dec characters_data item :
  Decision (item_ok characters_data item).
Proof. unfold item_ok. apply _. Defined.

(** A catalog whose distributions can all be served: every item of every
    distribution of an edition satisfies [item_ok] for that edition. *)
Definition catalog_served (editions_data : gmap string EditionData) : Prop :=
  map_Forall
    (λ _ edition_data,
       map_Forall
         (λ _ distribution,
            Forall (item_ok (edition_characters edition_data)) distribution)
         (edition_setup edition_data))
    editions_data.

#[global] Instance catalog_served_dec editions_data :
  Decision (catalog_served editions_data).
Proof. unfold catalog_served. apply _. Defined.

(** * Properties *)

(** ** The monad *)

Lemma bind_Ok {A B} (m : M A) (f : A → M B) w a w1 :
  m w = (Ok a, w1) → (m ≫= f) w = f a w1.
Proof. intros H. unfold mbind, M_bind. by rewrite H. Qed.

Lemma bind_Raise {A B} (m : M A) (f : A → M B) w e w1 :
  m w = (Raise e, w1) → (m ≫= f) w = (Raise e, w1).
Proof. intros H. unfold mbind, M_bind. by rewrite H. Qed.

Lemma bind_inv {A B} (m : M A) (f : A → M B) w r w' :
  (m ≫= f) w = (r, w') →
  (∃ a w1, m w = (Ok a, w1) ∧ f a w1 = (r, w')) ∨
  (∃ e, m w = (Raise e, w') ∧ r = Raise e).
Proof.
  unfold mbind, M_bind. destruct (m w) as [[a|e] w1]; intros H.
  - left. eauto.
  - right. exists e. by simplify_eq.
Qed.

Lemma keeps_games_ret {A} (a : A) : keeps_games (mret a).
Proof. intros w r w' H. unfold mret, M_ret in H. by simplify_eq. Qed.

Lemma keeps_games_raise {A} e : keeps_games (@raise A e).
Proof. intros w r w' H. unfold raise in H. by simplify_eq. Qed.

Lemma keeps_games_bind {A B} (m : M A) (f : A → M B) :
  keeps_games m → (∀ a, keeps_games (f a)) → keeps_games (m ≫= f).
Proof.
  intros Hm Hf w r w' H. apply bind_inv in H as [(a & w1 & H1 & H2)|(e & H1 & _)].
  - rewrite (Hf _ _ _ _ H2). eauto.
  - eauto.
Qed.

Lemma keeps_games_games_get game_id : keeps_games (games_get game_id).
Proof. intros w r w' H. unfold games_get in H. by simplify_eq. Qed.

Lemma keeps_games_randbelow n : keeps_games (randbelow n).
Proof.
  intros w r w' H. unfold randbelow in H.
  destruct (random w); by simplify_eq.
Qed.

Create HintDb keeps discriminated.
#[local] Hint Resolve keeps_games_ret keeps_games_raise keeps_games_games_get
  keeps_games_randbelow : keeps.

Ltac keeps_step :=
  first
    [ apply keeps_games_bind; [|intros ?]
    | apply keeps_games_ret
    | apply keeps_games_raise
    | solve [eauto with keeps]
    | match goal with |- keeps_games (match ?x with _ => _ end) => destruct x end
    | match goal with |- keeps_games (if ?x then _ else _) => destruct x end ].

Ltac keeps := repeat keeps_step.

Lemma randbelow_Ok n w :
  ∃ j w', randbelow n w = (Ok j, w') ∧ (0 < n → j < n).
Proof.
  unfold randbelow. destruct (random w) as [|r rs]; eexists _, _; split; try done.
  intros Hn. apply Nat.mod_upper_bound. lia.
Qed.

Lemma randbelow_head n r rs games0 :
  r < n →
  randbelow n {| games := games0; random := r :: rs |}
  = (Ok r, {| games := games0; random := rs |}).
Proof. intros Hr. unfold randbelow. simpl. by rewrite Nat.mod_small. Qed.

(** ** Lists updated in place *)

Lemma insert_Permutation {A} (l : list A) i a b :
  l !! i = Some a → a :: <[i := b]> l ≡ₚ b :: l.
Proof.
  revert i. induction l as [|x l IH]; intros [|i] H; simplify_eq/=.
  - apply perm_swap.
  - rewrite (perm_swap x a), (IH _ H). apply perm_swap.
Qed.

Lemma swap_Permutation {A} (x : list A) i j : swap x i j ≡ₚ x.
Proof.
  unfold swap. destruct (x !! i) as [a|] eqn:Hi; [|done].
  destruct (x !! j) as [b|] eqn:Hj; [|done].
  destruct (decide (i = j)) as [->|Hne].
  - simplify_eq. rewrite list_insert_insert_eq. by rewrite list_insert_id.
  - apply (Permutation_cons_inv (a := b)).
    rewrite insert_Permutation; last by rewrite list_lookup_insert_ne.
    by apply insert_Permutation.
Qed.

Lemma swap_length {A} (x : list A) i j : length (swap x i j) = length x.
Proof.
  unfold swap. destruct (x !! i), (x !! j); by rewrite ?length_insert.
Qed.

Lemma imap_pair_snd {A} (l : list A) : (imap pair l).*2 = l.
Proof.
  rewrite fmap_imap, (imap_ext _ (const id)) by done.
  by rewrite imap_const, list_fmap_id.
Qed.

Lemma imap_pair_fst {A} (l : list A) : (imap pair l).*1 = seq 0 (length l).
Proof.
  rewrite fmap_imap, (imap_ext _ (λ j _, id j)) by done.
  by rewrite imap_seq_0, list_fmap_id.
Qed.

Lemma fmap_filter {A B} (f : A → B) (P : B → Prop) `{!∀ y, Decision (P y)}
    (l : list A) :
  f <$> filter (λ x, P (f x)) l = filter P (f <$> l).
Proof.
  induction l as [|x l IH]; [done|]. csimpl.
  rewrite !filter_cons. case_decide; csimpl; by rewrite IH.
Qed.

Lemma NoDup_join_inj {A} (ls : list (list A)) p1 p2 l1 l2 i1 i2 x :
  NoDup (mjoin ls) →
  ls !! p1 = Some l1 → ls !! p2 = Some l2 →
  l1 !! i1 = Some x → l2 !! i2 = Some x →
  p1 = p2 ∧ i1 = i2.
Proof.
  revert p1 p2. induction ls as [|l ls IH]; intros p1 p2 Hnd H1 H2 Hx1 Hx2.
  { done. }
  simpl in Hnd. apply NoDup_app in Hnd as (Hl & Hdisj & Hls).
  assert (∀ p l', ls !! p = Some l' → x ∈ l' → x ∈ mjoin ls) as Hin.
  { intros p l' Hp Hx. apply list_elem_of_join. exists l'. split; [done|].
    by eapply list_elem_of_lookup_2. }
  destruct p1 as [|p1], p2 as [|p2]; simplify_eq/=.
  - split; [done|]. eauto using NoDup_lookup.
  - destruct (Hdisj x); [by eapply list_elem_of_lookup_2|].
    eapply Hin; [done|]. by eapply list_elem_of_lookup_2.
  - destruct (Hdisj x); [by eapply list_elem_of_lookup_2|].
    eapply Hin; [done|]. by eapply list_elem_of_lookup_2.
  - destruct (IH p1 p2); auto.
Qed.

Lemma NoDup_omap_inj {A B C} (f : A → option B) (g : B → C) (l : list A)
    i j x y a b :
  NoDup (g <$> omap f l) →
  l !! i = Some x → l !! j = Some y →
  f x = Some a → f y = Some b → g a = g b →
  i = j.
Proof.
  revert i j. induction l as [|z l IH]; intros i j Hnd Hi Hj Hx Hy Hg; [done|].
  assert (∀ k u c, l !! k = Some u → f u = Some c → g c ∈ g <$> omap f l) as Hin.
  { intros k u c Hk Hu. apply list_elem_of_fmap. exists c. split; [done|].
    apply list_elem_of_omap. exists u. split; [|done].
    by eapply list_elem_of_lookup_2. }
  simpl in Hnd. destruct i as [|i], j as [|j]; simplify_eq/=; [done|..].
  - rewrite Hx in Hnd. csimpl in Hnd. apply NoDup_cons in Hnd as [Hnotin _].
    destruct Hnotin. rewrite Hg. eauto.
  - rewrite Hy in Hnd. csimpl in Hnd. apply NoDup_cons in Hnd as [Hnotin _].
    destruct Hnotin. rewrite <-Hg. eauto.
  - f_equal. apply IH; try done.
    destruct (f z); [|done]. csimpl in Hnd. by apply NoDup_cons in Hnd as [_ ?].
Qed.

Lemma length_omap_filter {A B} (f : A → option B) (l : list A) :
  length (filter (λ x, is_Some (f x)) l) = length (omap f l).
Proof.
  induction l as [|x l IH]; [done|]. rewrite filter_cons. simpl.
  destruct (f x) eqn:Hx.
  - rewrite decide_True by done. simpl. by rewrite IH.
  - rewrite decide_False by (by intros [? ?]). done.
Qed.

Lemma CharacterType_value_of_value s ty :
  CharacterType_of_value s = Some ty → CharacterType_value ty = s.
Proof.
  unfold CharacterType_of_value. repeat case_decide; by intros [= <-].
Qed.

(** ** [random.sample] and [random.shuffle] *)

Lemma keeps_games_sample_loop {A} k m (pool : list A) :
  keeps_games (sample_loop k m pool).
Proof. revert m pool. induction k; intros; simpl; keeps. Qed.

Lemma keeps_games_random_sample {A} (population : list A) k :
  keeps_games (random_sample population k).
Proof. unfold random_sample. keeps. apply keeps_games_sample_loop. Qed.

Lemma keeps_games_shuffle_loop {A} i (x : list A) :
  keeps_games (shuffle_loop i x).
Proof. revert x. induction i; intros; simpl; keeps. Qed.

Lemma keeps_games_random_shuffle {A} (x : list A) :
  keeps_games (random_shuffle x).
Proof. apply keeps_games_shuffle_loop. Qed.

#[local] Hint Resolve keeps_games_random_sample keeps_games_random_shuffle : keeps.

Lemma sample_loop_fmap {A B} (f : A → B) k m (pool : list A) w :
  sample_loop k m (f <$> pool) w =
  match sample_loop k m pool w with
  | (Ok l, w') => (Ok (f <$> l), w')
  | (Raise e, w') => (Raise e, w')
  end.
Proof.
  revert m pool w. induction k as [|k IH]; intros m pool w; [done|].
  simpl. unfold mbind, M_bind.
  destruct (randbelow m w) as [[j|e] w1]; [|done].
  rewrite !list_lookup_fmap.
  destruct (pool !! j) as [x|]; [|done].
  destruct (pool !! (m - 1)) as [y|]; [|done]. simpl.
  rewrite <-list_fmap_insert, IH.
  by destruct (sample_loop k (m - 1) (<[j:=y]> pool) w1) as [[l|e] w2].
Qed.

Lemma pool_step {A} (pool : list A) m j x y :
  j < m → pool !! j = Some x → pool !! (m - 1) = Some y →
  x :: take (m - 1) (<[j:=y]> pool) ≡ₚ take m pool.
Proof.
  intros Hj Hx Hy. replace m with (S (m - 1)) at 2 by lia.
  rewrite (take_S_r _ _ _ Hy), <-Permutation_cons_append.
  destruct (decide (j = m - 1)) as [->|Hne].
  - simplify_eq. by rewrite take_insert_ge by lia.
  - rewrite take_insert_lt by lia. apply insert_Permutation.
    rewrite lookup_take_lt by lia. done.
Qed.

Lemma sample_loop_Ok {A} k m (pool : list A) w :
  k ≤ m ≤ length pool →
  ∃ chosen rest w', sample_loop k m pool w = (Ok chosen, w') ∧
    length chosen = k ∧ chosen ++ rest ≡ₚ take m pool.
Proof.
  revert m pool w. induction k as [|k IH]; intros m pool w Hk.
  { exists [], (take m pool), w. done. }
  simpl. destruct (randbelow_Ok m w) as (j & w1 & Hj & Hlt).
  rewrite (bind_Ok _ _ _ _ _ Hj).
  destruct (lookup_lt_is_Some_2 pool j) as [x Hx]; [lia|].
  destruct (lookup_lt_is_Some_2 pool (m - 1)) as [y Hy]; [lia|].
  rewrite Hx, Hy.
  destruct (IH (m - 1) (<[j:=y]> pool) w1) as (chosen & rest & w' & Hs & Hlen & Hperm).
  { rewrite length_insert. lia. }
  rewrite (bind_Ok _ _ _ _ _ Hs).
  exists (x :: chosen), rest, w'. split_and!; [done|simpl; lia|].
  simpl. rewrite Hperm. apply pool_step; [lia|done..].
Qed.

(** Every list of elements at different positions of the pool is the result
    of the loop for some numbers of the generator. *)
Lemma sample_loop_complete {A} (targets : list A) m pool games0 :
  m ≤ length pool →
  targets ⊆+ take m pool →
  ∃ rs, sample_loop (length targets) m pool {| games := games0; random := rs |}
        = (Ok targets, {| games := games0; random := [] |}).
Proof.
  revert m pool. induction targets as [|t ts IH]; intros m pool Hm Hsub.
  { by exists []. }
  assert (t ∈ take m pool) as Ht.
  { eapply elem_of_submseteq; [|done]. apply list_elem_of_here. }
  apply elem_of_take in Ht as (j & Hj & Hlt).
  destruct (lookup_lt_is_Some_2 pool (m - 1)) as [y Hy]; [lia|].
  destruct (IH (m - 1) (<[j:=y]> pool)) as [rs Hrs].
  { rewrite length_insert. lia. }
  { apply (submseteq_app_inv_l _ _ [t]). simpl.
    by rewrite (pool_step pool m j t y). }
  exists (j :: rs). cbn [sample_loop length].
  rewrite (bind_Ok _ _ _ _ _ (randbelow_head _ j rs games0 Hlt)), Hj, Hy.
  by rewrite (bind_Ok _ _ _ _ _ Hrs).
Qed.

Lemma random_sample_Ok {A} (population : list A) (k : Z) w :
  (0 ≤ k ≤ Z.of_nat (length population))%Z →
  ∃ positions chosen w', random_sample population k w = (Ok chosen, w') ∧
    length chosen = Z.to_nat k ∧ drawn_at population positions chosen.
Proof.
  intros Hk. unfold random_sample. rewrite decide_True by done.
  set (pool := imap pair population).
  assert (population = snd <$> pool) as Hpop by (by unfold pool; rewrite imap_pair_snd).
  assert (length pool = length population) as Hlen by apply length_imap.
  destruct (sample_loop_Ok (Z.to_nat k) (length population) pool w)
    as (chosen & rest & w' & Hs & Hl & Hperm); [lia|].
  rewrite take_ge in Hperm by lia.
  exists (chosen.*1), (chosen.*2), w'. split_and!.
  - rewrite Hpop at 2. rewrite sample_loop_fmap, Hs. done.
  - by rewrite length_fmap.
  - split.
    + apply (NoDup_app (chosen.*1) (rest.*1)). rewrite <-fmap_app, Hperm.
      unfold pool. rewrite imap_pair_fst. apply NoDup_seq.
    + apply Forall2_fmap, Forall_Forall2_diag, Forall_forall.
      intros [i x] Hin. simpl.
      assert ((i, x) ∈ pool) as Hin' by (rewrite <-Hperm; apply elem_of_app; by left).
      unfold pool in Hin'. apply list_elem_of_lookup in Hin' as [i' Hin'].
      rewrite list_lookup_imap in Hin'.
      destruct (population !! i') eqn:E; by simplify_eq/=.
Qed.

Lemma shuffle_loop_Ok {A} i (x : list A) w :
  ∃ y w', shuffle_loop i x w = (Ok y, w') ∧ y ≡ₚ x.
Proof.
  revert x w. induction i as [|i IH]; intros x w; [by exists x, w|].
  simpl. destruct (randbelow_Ok (S (S i)) w) as (j & w1 & Hj & _).
  rewrite (bind_Ok _ _ _ _ _ Hj).
  destruct (IH (swap x (S i) j) w1) as (y & w' & Hs & Hperm).
  exists y, w'. split; [done|]. by rewrite Hperm, swap_Permutation.
Qed.

Lemma random_shuffle_Ok {A} (x : list A) w :
  ∃ y w', random_shuffle x w = (Ok y, w') ∧ y ≡ₚ x.
Proof. apply shuffle_loop_Ok. Qed.

(** Every draw without replacement is a result of [random_sample], and every
    permutation a result of [random_shuffle], for some numbers of the
    generator: the two functions stand for all that the library can return. *)
Lemma random_sample_complete {A} (population : list A) positions chosen games0 :
  drawn_at population positions chosen →
  ∃ rs, random_sample population (Z.of_nat (length chosen))
          {| games := games0; random := rs |}
        = (Ok chosen, {| games := games0; random := [] |}).
Proof.
  intros [Hnd Hpos].
  pose proof (Forall2_length _ _ _ Hpos) as Hlen.
  assert (zip positions chosen ⊆+ imap pair population) as Hsub.
  { apply NoDup_submseteq; [by apply NoDup_zip_l|].
    intros [p x] Hin. apply list_elem_of_lookup in Hin as [i Hi].
    apply lookup_zip_with_Some in Hi as (p' & x' & [= <- <-] & Hp & Hx).
    destruct (Forall2_lookup_l _ _ _ _ _ Hpos Hp) as (x'' & Hx'' & Hlook).
    simplify_eq. by apply (elem_of_lookup_imap_2 pair). }
  pose proof (submseteq_length _ _ Hsub) as Hle.
  rewrite length_zip_with, length_imap in Hle.
  destruct (sample_loop_complete (zip positions chosen) (length population)
              (imap pair population) games0) as [rs Hrs].
  { by rewrite length_imap. }
  { by rewrite take_ge by (by rewrite length_imap). }
  exists rs. unfold random_sample. rewrite decide_True by lia.
  rewrite <-(imap_pair_snd population) at 2.
  rewrite sample_loop_fmap, Nat2Z.id.
  rewrite length_zip_with in Hrs.
  replace (length positions `min` length chosen) with (length chosen) in Hrs by lia.
  rewrite Hrs. by rewrite snd_zip by lia.
Qed.

Lemma shuffle_loop_complete {A} i (x y : list A) games0 :
  length x = length y → i < length x →
  take (S i) x ≡ₚ take (S i) y → drop (S i) x = drop (S i) y →
  ∃ rs, shuffle_loop i x {| games := games0; random := rs |}
        = (Ok y, {| games := games0; random := [] |}).
Proof.
  revert x. induction i as [|i IH]; intros x Hlen Hi Htake Hdrop.
  - exists []. destruct x as [|a x], y as [|b y]; simpl in *; try lia.
    rewrite !take_0 in Htake. apply Permutation_singleton_l in Htake.
    rewrite !drop_0 in Hdrop. by simplify_eq.
  - destruct (lookup_lt_is_Some_2 y (S i)) as [t Ht]; [lia|].
    destruct (lookup_lt_is_Some_2 x (S i)) as [a Ha]; [lia|].
    assert (t ∈ take (S (S i)) x) as Hin.
    { rewrite Htake. apply elem_of_take. exists (S i). split; [done|lia]. }
    apply elem_of_take in Hin as (j & Hj & Hlt).
    set (x' := swap x (S i) j).
    assert (x' = <[j:=a]> (<[S i:=t]> x)) as Hx'.
    { unfold x', swap. by rewrite Ha, Hj. }
    assert (x' !! S i = Some t) as Hlook.
    { rewrite Hx'. destruct (decide (j = S i)) as [->|Hne].
      - simplify_eq. apply list_lookup_insert_eq. rewrite length_insert. lia.
      - rewrite list_lookup_insert_ne by done.
        apply list_lookup_insert_eq. lia. }
    assert (drop (S (S i)) x' = drop (S (S i)) x) as Hdrop'.
    { rewrite Hx'. by rewrite !drop_insert_lt by lia. }
    assert (take (S (S i)) x' ≡ₚ take (S (S i)) x) as Htake'.
    { apply (Permutation_app_inv_r (drop (S (S i)) x)).
      rewrite <-Hdrop' at 1. rewrite !take_drop. apply swap_Permutation. }
    destruct (IH x') as [rs Hrs].
    + unfold x'. by rewrite swap_length.
    + unfold x'. rewrite swap_length. lia.
    + apply (Permutation_app_inv_r [t]).
      rewrite <-(take_S_r _ _ _ Hlook), <-(take_S_r _ _ _ Ht).
      by rewrite Htake'.
    + rewrite (drop_S _ _ _ Hlook), (drop_S _ _ _ Ht). by rewrite Hdrop', Hdrop.
    + exists (j :: rs). cbn [shuffle_loop].
      by rewrite (bind_Ok _ _ _ _ _ (randbelow_head _ j rs games0 Hlt)).
Qed.

Lemma random_shuffle_complete {A} (x y : list A) games0 :
  y ≡ₚ x →
  ∃ rs, random_shuffle x {| games := games0; random := rs |}
        = (Ok y, {| games := games0; random := [] |}).
Proof.
  intros Hperm. unfold random_shuffle.
  destruct x as [|a x].
  { apply Permutation_nil_r in Hperm as ->. by exists []. }
  pose proof (Permutation_length Hperm) as Hlen.
  apply shuffle_loop_complete; simpl in *; try lia.
  - rewrite Nat.sub_0_r. rewrite (take_ge y) by lia.
    rewrite firstn_all. by rewrite Hperm.
  - rewrite Nat.sub_0_r. rewrite (drop_ge y) by lia. by rewrite skipn_all.
Qed.

(** ** [sorted] *)

Lemma insert_by_Permutation {A} (key : A → Z) x l : insert_by key x l ≡ₚ x :: l.
Proof.
  induction l as [|y l IH]; [done|]. simpl. case_decide; [done|].
  by rewrite IH, perm_swap.
Qed.

Lemma sorted_Permutation {A} (key : A → Z) l : sorted key l ≡ₚ l.
Proof.
  induction l as [|x l IH]; [done|]. simpl.
  by rewrite insert_by_Permutation, IH.
Qed.

Lemma insert_by_Sorted {A} (key : A → Z) x l :
  Sorted (λ a b, key a ≤ key b)%Z l →
  Sorted (λ a b, key a ≤ key b)%Z (insert_by key x l).
Proof.
  induction 1 as [|y l Hs IH Hd]; simpl.
  { repeat constructor. }
  case_decide.
  - repeat constructor; done.
  - constructor; [done|].
    destruct Hd as [|z l Hz]; simpl.
    + constructor. lia.
    + case_decide; constructor; lia.
Qed.

Lemma sorted_Sorted {A} (key : A → Z) l :
  Sorted (λ a b, key a ≤ key b)%Z (sorted key l).
Proof.
  induction l as [|x l IH]; simpl; [constructor|]. by apply insert_by_Sorted.
Qed.

Lemma insert_by_filter_key {A} (key : A → Z) (r : Z) x l :
  filter (λ a, key a = r) (insert_by key x l) = filter (λ a, key a = r) (x :: l).
Proof.
  induction l as [|y l IH]; [done|]. simpl. case_decide; [done|].
  rewrite filter_cons, IH, !filter_cons.
  repeat case_decide; try done; lia.
Qed.

(** Stability: the elements of one key keep the order they had. *)
Lemma sorted_stable {A} (key : A → Z) (r : Z) l :
  filter (λ a, key a = r) (sorted key l) = filter (λ a, key a = r) l.
Proof.
  induction l as [|x l IH]; [done|]. simpl.
  by rewrite insert_by_filter_key, !filter_cons, IH.
Qed.

(** ** The assignment engine *)

Lemma random_sample_inv {A} (population : list A) (k : Z) w chosen w' :
  random_sample population k w = (Ok chosen, w') →
  (0 ≤ k ≤ Z.of_nat (length population))%Z ∧
  length chosen = Z.to_nat k ∧
  ∃ positions, drawn_at population positions chosen.
Proof.
  intros H. destruct (decide (0 ≤ k ≤ Z.of_nat (length population))%Z) as [Hk|Hk].
  - destruct (random_sample_Ok population k w Hk) as (ps & ch & w1 & H1 & Hl & Hd).
    rewrite H in H1. simplify_eq. eauto.
  - unfold random_sample in H. by rewrite decide_False in H by done.
Qed.

Lemma keeps_games_mapM {A B} (f : A → M B) l :
  (∀ x, keeps_games (f x)) → keeps_games (mapM f l).
Proof. intros Hf. induction l; simpl; keeps; auto. Qed.

Lemma keeps_games_make_character char_type char :
  keeps_games (make_character char_type char).
Proof. unfold make_character. keeps. Qed.

Lemma mapM_make_character_Ok char_type ty chosen w :
  CharacterType_of_value char_type = Some ty →
  mapM (make_character char_type) chosen w = (Ok (character_of ty <$> chosen), w).
Proof.
  intros Hty. induction chosen as [|char chosen IH]; [done|]. simpl.
  rewrite (bind_Ok _ _ _ (character_of ty char) w);
    [|by unfold make_character; rewrite Hty].
  by rewrite (bind_Ok _ _ _ _ _ IH).
Qed.

Lemma mapM_make_character_inv char_type chosen w new w' :
  mapM (make_character char_type) chosen w = (Ok new, w') →
  Forall2 (λ char c, ∃ ty, CharacterType_of_value char_type = Some ty ∧
                           c = character_of ty char) chosen new.
Proof.
  destruct (CharacterType_of_value char_type) as [ty|] eqn:Hty.
  - rewrite (mapM_make_character_Ok _ ty) by done. intros [= <- <-].
    rewrite Forall2_fmap_r. apply Forall_Forall2_diag, Forall_forall. eauto.
  - destruct chosen as [|char chosen]; simpl.
    + unfold mret, M_ret. intros [= <- <-]. constructor.
    + rewrite (bind_Raise _ _ _ ValidationError w); [done|].
      unfold make_character. by rewrite Hty.
Qed.

Lemma keeps_games_select_loop characters_data distribution selected :
  keeps_games (select_loop characters_data distribution selected).
Proof.
  revert selected. induction distribution as [|[char_type count] d IH];
    intros selected; simpl; keeps; auto.
  apply keeps_games_mapM, keeps_games_make_character.
Qed.

Lemma select_loop_inv characters_data distribution selected w result w' :
  select_loop characters_data distribution selected w = (Ok result, w') →
  ∃ chunks, result = selected ++ mjoin chunks ∧
    Forall2 (category_chunk characters_data) distribution chunks.
Proof.
  revert selected w. induction distribution as [|[char_type count] d IH];
    intros selected w H; simpl in H.
  { unfold mret, M_ret in H. simplify_eq. exists []. by rewrite app_nil_r. }
  destruct (characters_data !! char_type) as [available|] eqn:Hav; [|done].
  apply bind_inv in H as [(chosen & w1 & Hs & H)|(e & _ & ?)]; [|done].
  apply bind_inv in H as [(new & w2 & Hm & H)|(e & _ & ?)]; [|done].
  apply IH in H as (chunks & -> & Hchunks).
  apply random_sample_inv in Hs as (Hk & Hlen & positions & Hdrawn).
  apply mapM_make_character_inv in Hm.
  exists (new :: chunks). split; [by rewrite <-(assoc_L (++))|].
  constructor; [|done].
  exists available, positions, chosen. simpl. split_and!; try done; lia.
Qed.

Lemma select_loop_Ok characters_data distribution selected w :
  Forall (item_ok characters_data) distribution →
  ∃ result w', select_loop characters_data distribution selected w = (Ok result, w').
Proof.
  intros Hd. revert selected w.
  induction Hd as [|[char_type count] d ([available Hav] & [ty Hty] & Hc) _ IH];
    intros selected w; simpl in *.
  { by eexists _, _. }
  rewrite Hav.
  destruct (random_sample_Ok available (count `min` Z.of_nat (length available)) w)
    as (positions & chosen & w1 & Hs & _); [lia|].
  rewrite (bind_Ok _ _ _ _ _ Hs).
  rewrite (bind_Ok _ _ _ _ _ (mapM_make_character_Ok _ _ _ _ Hty)).
  apply IH.
Qed.

(** ** Identifiers in a selection *)

Lemma catalog_ids_inj edition_data t1 t2 l1 l2 i1 i2 e1 e2 :
  NoDup (catalog_ids edition_data) →
  edition_characters edition_data !! t1 = Some l1 →
  edition_characters edition_data !! t2 = Some l2 →
  l1 !! i1 = Some e1 → l2 !! i2 = Some e2 →
  entry_id e1 = entry_id e2 →
  t1 = t2 ∧ i1 = i2.
Proof.
  intros Hnd H1 H2 Hi1 Hi2 Hid.
  apply elem_of_map_to_list, list_elem_of_lookup in H1 as [p1 H1].
  apply elem_of_map_to_list, list_elem_of_lookup in H2 as [p2 H2].
  destruct (NoDup_join_inj _ p1 p2 (entry_id <$> l1) (entry_id <$> l2) i1 i2
              (entry_id e1) Hnd) as [-> ->].
  - by rewrite list_lookup_fmap, H1.
  - by rewrite list_lookup_fmap, H2.
  - by rewrite list_lookup_fmap, Hi1.
  - by rewrite list_lookup_fmap, Hi2, Hid.
  - by simplify_eq.
Qed.

Lemma category_chunk_lookup characters_data item chunk i c :
  category_chunk characters_data item chunk →
  chunk !! i = Some c →
  ∃ available positions p char,
    characters_data !! item.1 = Some available ∧
    NoDup positions ∧ positions !! i = Some p ∧
    available !! p = Some char ∧ Character.id c = entry_id char.
Proof.
  intros (available & positions & chosen & Hav & _ & _ & [Hnd Hpos] & Hchunk) Hc.
  destruct (Forall2_lookup_r _ _ _ _ _ Hchunk Hc) as (char & Hchar & ty & _ & ->).
  destruct (Forall2_lookup_r _ _ _ _ _ Hpos Hchar) as (p & Hp & Hlook).
  by exists available, positions, p, char.
Qed.

Lemma category_chunk_NoDup edition_data item chunk :
  NoDup (catalog_ids edition_data) →
  category_chunk (edition_characters edition_data) item chunk →
  NoDup (Character.id <$> chunk).
Proof.
  intros Hids (available & positions & chosen & Hav & _ & _ & [Hnd Hpos] & Hch).
  apply NoDup_alt. intros i j x. rewrite !list_lookup_fmap. intros Hi Hj.
  destruct (chunk !! i) as [c1|] eqn:Hc1; [|done].
  destruct (chunk !! j) as [c2|] eqn:Hc2; [|done]. simplify_eq/=.
  destruct (Forall2_lookup_r _ _ _ _ _ Hch Hc1) as (e1 & He1 & ty1 & _ & ->).
  destruct (Forall2_lookup_r _ _ _ _ _ Hch Hc2) as (e2 & He2 & ty2 & _ & ->).
  destruct (Forall2_lookup_r _ _ _ _ _ Hpos He1) as (p1 & Hp1 & Hlook1).
  destruct (Forall2_lookup_r _ _ _ _ _ Hpos He2) as (p2 & Hp2 & Hlook2).
  simpl in *.
  destruct (catalog_ids_inj _ _ _ _ _ _ _ _ _ Hids Hav Hav Hlook1 Hlook2) as [_ ->];
    [done|].
  by eapply NoDup_lookup.
Qed.

Lemma selection_NoDup edition_data distribution chunks :
  NoDup (catalog_ids edition_data) →
  NoDup distribution.*1 →
  Forall2 (category_chunk (edition_characters edition_data)) distribution chunks →
  NoDup (Character.id <$> mjoin chunks).
Proof.
  intros Hids Hkeys Hchunks.
  induction Hchunks as [|item chunk distribution chunks Hchunk Hchunks IH].
  { constructor. }
  csimpl in *. apply NoDup_cons in Hkeys as [Hkey Hkeys].
  rewrite fmap_app. apply NoDup_app. split_and!.
  - by eapply category_chunk_NoDup.
  - intros x Hx1 Hx2.
    apply list_elem_of_fmap in Hx1 as (c1 & -> & Hc1).
    apply list_elem_of_fmap in Hx2 as (c2 & Hid & Hc2).
    apply list_elem_of_join in Hc2 as (chunk2 & Hc2 & Hchunk2).
    apply list_elem_of_lookup in Hchunk2 as [k Hk].
    destruct (Forall2_lookup_r _ _ _ _ _ Hchunks Hk) as (item2 & Hitem2 & Hchunk2).
    apply list_elem_of_lookup in Hc1 as [i1 Hc1], Hc2 as [i2 Hc2].
    destruct (category_chunk_lookup _ _ _ _ _ Hchunk Hc1)
      as (l1 & _ & p1 & e1 & Hl1 & _ & _ & He1 & Hid1).
    destruct (category_chunk_lookup _ _ _ _ _ Hchunk2 Hc2)
      as (l2 & _ & p2 & e2 & Hl2 & _ & _ & He2 & Hid2).
    destruct (catalog_ids_inj _ _ _ _ _ _ _ _ _ Hids Hl1 Hl2 He1 He2) as [Heq _];
      [congruence|].
    destruct Hkey. rewrite Heq. apply list_elem_of_fmap. exists item2.
    split; [done|]. by eapply list_elem_of_lookup_2.
  - by apply IH.
Qed.

Section Properties.
Context (editions_data : gmap string EditionData).

Lemma keeps_games_get_role_distribution edition player_count :
  keeps_games (_get_role_distribution editions_data edition player_count).
Proof. unfold _get_role_distribution. keeps. Qed.

Lemma keeps_games_select_random_characters edition distribution :
  keeps_games (_select_random_characters editions_data edition distribution).
Proof.
  unfold _select_random_characters. keeps. apply keeps_games_select_loop.
Qed.

Lemma keeps_games_draw_characters edition player_count :
  keeps_games (draw_characters editions_data edition player_count).
Proof.
  unfold draw_characters. keeps.
  - apply keeps_games_get_role_distribution.
  - apply keeps_games_select_random_characters.
Qed.

(** ** [start_game], case by case *)

Lemma foldl_assign_deal pre players characters :
  foldl assign (pre ++ players)
    (zip (filter (λ ip, Player.is_storyteller ip.2 = false)
            (imap (λ i, pair (length pre + i)) players)) characters)
  = pre ++ deal players characters.
Proof.
  revert pre characters.
  induction players as [|p players IH]; intros pre characters; [done|].
  rewrite imap_cons, filter_cons. simpl.
  assert (∀ q, imap ((λ i, pair (length pre + i)) ∘ S) players
             = imap (λ i, pair (length (pre ++ [q]) + i)) players) as Himap.
  { intros q. apply imap_ext. intros i x _. simpl.
    rewrite length_app. simpl. f_equal. lia. }
  destruct (Player.is_storyteller p) eqn:Hp.
  - rewrite decide_False by done. rewrite (Himap p).
    rewrite (cons_middle p pre), (assoc_L (++)), IH.
    by rewrite <-(assoc_L (++)).
  - rewrite decide_True by done.
    destruct characters as [|c characters]; [done|]. simpl.
    unfold assign at 2. simpl. rewrite Nat.add_0_r.
    rewrite (Himap (Player.set_character c p)).
    assert (alter (Player.set_character c) (length pre) (pre ++ p :: players)
            = (pre ++ [Player.set_character c p]) ++ players) as ->.
    { rewrite <-(assoc_L (++)). simpl.
      rewrite alter_app_r_alt by lia. by rewrite Nat.sub_diag. }
    rewrite IH. by rewrite <-(assoc_L (++)).
Qed.

Lemma assign_deal game characters :
  foldl assign (Game.players game) (zip (non_storyteller_players game) characters)
  = deal (Game.players game) characters.
Proof. apply (foldl_assign_deal []). Qed.

Lemma non_storyteller_players_participants game :
  (non_storyteller_players game).*2 = participants game.
Proof.
  unfold non_storyteller_players, participants.
  rewrite <-(imap_pair_snd (Game.players game)) at 2.
  by rewrite <-(fmap_filter snd (λ p, Player.is_storyteller p = false)).
Qed.

Lemma length_non_storyteller_players game :
  length (non_storyteller_players game) = length (participants game).
Proof. by rewrite <-non_storyteller_players_participants, length_fmap. Qed.

Lemma start_game_cases game_id player_count w :
  start_game editions_data game_id player_count w =
  match games w !! game_id with
  | None => (Raise (ValueError (GameNotFound game_id)), w)
  | Some game =>
    if Game.started game then (Raise (ValueError AlreadyStarted), w)
    else if decide (Z.of_nat (length (participants game)) ≠ player_count) then
      (Raise (ValueError
                (PlayerCountMismatch player_count (length (participants game)))), w)
    else
      match draw_characters editions_data (Game.edition game) player_count w with
      | (Raise e, w1) => (Raise e, w1)
      | (Ok characters, w1) =>
        (Ok (started_game game player_count characters),
         set_games <[game_id := started_game game player_count characters]> w1)
      end
  end.
Proof.
  unfold start_game.
  rewrite (bind_Ok _ _ w (games w !! game_id) w) by done.
  destruct (games w !! game_id) as [game|] eqn:Hgame; [|done].
  destruct (Game.started game); [done|].
  rewrite length_non_storyteller_players.
  case_decide; [done|].
  unfold draw_characters.
  destruct (_get_role_distribution editions_data (Game.edition game)
              player_count w) as [[distribution|e] w1] eqn:H1;
    [|by rewrite !(bind_Raise _ _ _ _ _ H1)].
  rewrite !(bind_Ok _ _ _ _ _ H1).
  destruct (_select_random_characters editions_data (Game.edition game)
              distribution w1) as [[selected|e] w2] eqn:H2;
    [|by rewrite !(bind_Raise _ _ _ _ _ H2)].
  rewrite !(bind_Ok _ _ _ _ _ H2).
  destruct (random_shuffle selected w2) as [[characters|e] w3] eqn:H3;
    [|by rewrite (bind_Raise _ _ _ _ _ H3)].
  rewrite (bind_Ok _ _ _ _ _ H3).
  assert (games w3 !! game_id = Some game) as Hgame3.
  { rewrite (keeps_games_random_shuffle _ _ _ _ H3).
    rewrite (keeps_games_select_random_characters _ _ _ _ _ H2).
    by rewrite (keeps_games_get_role_distribution _ _ _ _ _ H1). }
  unfold mbind, M_bind, mutate, deref, set_games. simpl.
  rewrite !lookup_alter_eq, Hgame3. simpl.
  unfold started_game, Game.set_player_count, Game.set_started, Game.set_players.
  simpl. rewrite assign_deal. f_equal. f_equal.
  apply map_eq. intros k. destruct (decide (k = game_id)) as [->|Hne].
  - rewrite lookup_insert_eq, !lookup_alter_eq, Hgame3. simpl.
    by rewrite assign_deal.
  - by rewrite lookup_insert_ne, !lookup_alter_ne by done.
Qed.

(** ** [create_game] and [join_game], case by case *)

Lemma create_game_cases game_id player_id edition storyteller_name w :
  create_game editions_data game_id player_id edition storyteller_name w =
  match editions_data !! edition with
  | None => (Raise (ValueError (EditionNotFound edition)), w)
  | Some _ =>
    let game := Game.mk game_id edition
                  [Player.mk player_id storyteller_name None true] false None in
    (Ok game, set_games <[game_id := game]> w)
  end.
Proof. unfold create_game. by destruct (editions_data !! edition). Qed.

Lemma join_game_cases player_id game_id player_name w :
  join_game player_id game_id player_name w =
  match games w !! game_id with
  | None => (Raise (ValueError (GameNotFound game_id)), w)
  | Some game =>
    if Game.started game then (Raise (ValueError AlreadyStarted), w)
    else
      let player := Player.mk player_id player_name None false in
      (Ok player,
       set_games <[game_id := Game.set_players (λ ps, ps ++ [player]) game]> w)
  end.
Proof.
  unfold join_game.
  rewrite (bind_Ok _ _ w (games w !! game_id) w) by done.
  destruct (games w !! game_id) as [game|] eqn:Hgame; [|done].
  destruct (Game.started game); [done|].
  unfold mbind, M_bind, mutate, mret, M_ret, set_games. simpl.
  f_equal. f_equal. apply map_eq. intros k.
  destruct (decide (k = game_id)) as [->|Hne].
  - by rewrite lookup_insert_eq, lookup_alter_eq, Hgame.
  - by rewrite lookup_insert_ne, lookup_alter_ne by done.
Qed.

(** ** The invariant of the reachable states *)

Lemma deal_storyteller_free others characters :
  Forall (λ p, Player.is_storyteller p = false) others →
  Forall (λ p, Player.is_storyteller p = false) (deal others characters).
Proof.
  intros H. revert characters.
  induction H as [|p others Hp Hothers IH]; intros characters; simpl; [done|].
  rewrite Hp. destruct characters as [|c characters]; constructor; auto.
Qed.

Lemma game_ok_started_game game player_count characters :
  game_ok game → game_ok (started_game game player_count characters).
Proof.
  intros [(storyteller & others & Hps & Hst & Hch & Hothers) _].
  split; [|done]. simpl. rewrite Hps. simpl. rewrite Hst.
  exists storyteller, (deal others characters).
  split_and!; try done. by apply deal_storyteller_free.
Qed.

Lemma reachable_game_ok w game_id game :
  reachable editions_data w → games w !! game_id = Some game → game_ok game.
Proof.
  intros Hw. revert game_id game.
  induction Hw as [random|w gid pid edition name _ IH|w pid gid name _ IH
                   |w gid player_count _ IH]; intros game_id game.
  - simpl. by rewrite lookup_empty.
  - rewrite create_game_cases. destruct (editions_data !! edition); [|by eauto].
    simpl. destruct (decide (game_id = gid)) as [->|Hne].
    + rewrite lookup_insert_eq. intros [= <-]. split; simpl.
      * eexists _, []. split_and!; done.
      * intros _. by repeat constructor.
    + rewrite lookup_insert_ne by done. eauto.
  - rewrite join_game_cases.
    destruct (games w !! gid) as [g|] eqn:Hg; [|by eauto].
    destruct (Game.started g) eqn:Hstarted; [by eauto|].
    simpl. destruct (decide (game_id = gid)) as [->|Hne].
    + rewrite lookup_insert_eq. intros [= <-].
      destruct (IH _ _ Hg) as [(storyteller & others & Hps & Hst & Hch & Hothers) Hnone].
      split; simpl.
      * exists storyteller, (others ++ [Player.mk pid name None false]).
        rewrite Hps. split_and!; try done.
        apply Forall_app. split; [done|]. by repeat constructor.
      * intros _. apply Forall_app. split; [by apply Hnone|]. by repeat constructor.
    + rewrite lookup_insert_ne by done. eauto.
  - rewrite start_game_cases.
    destruct (games w !! gid) as [g|] eqn:Hg; [|by eauto].
    destruct (Game.started g) eqn:Hstarted; [by eauto|].
    case_decide; [by eauto|].
    pose proof (keeps_games_draw_characters (Game.edition g) player_count w) as Hk.
    destruct (draw_characters editions_data (Game.edition g) player_count w)
      as [[characters|e] w1] eqn:Hdraw; simpl.
    + rewrite (Hk _ _ eq_refl).
      destruct (decide (game_id = gid)) as [->|Hne].
      * rewrite lookup_insert_eq. intros [= <-].
        apply game_ok_started_game. eauto.
      * rewrite lookup_insert_ne by done. eauto.
    + rewrite (Hk _ _ eq_refl). eauto.
Qed.

(** ** What [deal] does to the players *)

Lemma lookup_participants_deal players characters i :
  filter (λ p, Player.is_storyteller p = false) (deal players characters) !! i =
  (λ p, from_option (λ c, Player.set_character c p) p (characters !! i)) <$>
    (filter (λ p, Player.is_storyteller p = false) players !! i).
Proof.
  revert characters i.
  induction players as [|p players IH]; intros characters i; [done|]. simpl.
  destruct (Player.is_storyteller p) eqn:Hp.
  - rewrite !filter_cons_False by (by rewrite Hp). apply IH.
  - destruct characters as [|c characters].
    + simpl. by destruct (filter _ (p :: players) !! i).
    + rewrite !filter_cons_True by done. destruct i as [|i]; [done|]. apply IH.
Qed.

Lemma length_participants_deal players characters :
  length (filter (λ p, Player.is_storyteller p = false) (deal players characters)) =
  length (filter (λ p, Player.is_storyteller p = false) players).
Proof.
  revert characters.
  induction players as [|p players IH]; intros characters; [done|]. simpl.
  destruct (Player.is_storyteller p) eqn:Hp.
  - rewrite !filter_cons_False by (by rewrite Hp). apply IH.
  - destruct characters as [|c characters]; [done|].
    rewrite !filter_cons_True by done. simpl. by rewrite IH.
Qed.

Lemma characters_deal players characters :
  Forall (λ p, Player.character p = None) players →
  omap Player.character (deal players characters) =
  take (length (filter (λ p, Player.is_storyteller p = false) players)) characters.
Proof.
  intros H. revert characters.
  induction H as [|p players Hp Hps IH]; intros characters; [done|]. simpl.
  destruct (Player.is_storyteller p) eqn:Hst.
  - rewrite filter_cons_False by (by rewrite Hst). simpl. rewrite Hp. apply IH.
  - rewrite filter_cons_True by done. destruct characters as [|c characters]; simpl.
    + rewrite Hp. clear IH. induction Hps as [|q qs Hq _ IH']; [done|].
      simpl. by rewrite Hq.
    + by rewrite IH.
Qed.

(** ** The session life cycle *)

(** C6. [join_game] raises the not-found error when no game has the id, and the
    already-started error when the game is started; otherwise it returns a new
    player that is not a storyteller and has no character, appended at the end
    of the players of that game, whose edition, started flag, recorded player
    count and earlier players are as before; no other game changes. *)
Theorem join_game_spec player_id game_id player_name w :
  match games w !! game_id with
  | None =>
    raises (join_game player_id game_id player_name) w
      (ValueError (GameNotFound game_id)) NotFound
  | Some game =>
    if Game.started game then
      raises (join_game player_id game_id player_name) w
        (ValueError AlreadyStarted) InvalidState
    else
      ∃ player game' w',
        join_game player_id game_id player_name w = (Ok player, w') ∧
        player = Player.mk player_id player_name None false ∧
        games w' = <[game_id := game']> (games w) ∧
        random w' = random w ∧
        Game.players game' = Game.players game ++ [player] ∧
        Game.id game' = Game.id game ∧
        Game.edition game' = Game.edition game ∧
        Game.started game' = Game.started game ∧
        Game.player_count game' = Game.player_count game
  end.
Proof.
  unfold raises. rewrite !join_game_cases.
  destruct (games w !! game_id) as [game|]; [|done].
  destruct (Game.started game) eqn:Hstarted; [done|].
  eexists _, _, _. split_and!; done.
Qed.

(** C3. [start_game] raises the not-found error when no game has the id, the
    already-started error when the game is started, and the count-mismatch
    error when the game is not started and the number of its players that are
    not the storyteller differs from [player_count]; the last two are of the
    kind InvalidState.  After a call that succeeded, every further call for
    the same game raises the already-started error. *)
Theorem start_game_rejects game_id player_count w :
  match games w !! game_id with
  | None =>
    raises (start_game editions_data game_id player_count) w
      (ValueError (GameNotFound game_id)) NotFound
  | Some game =>
    if Game.started game then
      raises (start_game editions_data game_id player_count) w
        (ValueError AlreadyStarted) InvalidState
    else
      Z.of_nat (length (participants game)) ≠ player_count →
      raises (start_game editions_data game_id player_count) w
        (ValueError (PlayerCountMismatch player_count (length (participants game))))
        InvalidState
  end ∧
  ∀ game' w' player_count',
    start_game editions_data game_id player_count w = (Ok game', w') →
    raises (start_game editions_data game_id player_count') w'
      (ValueError AlreadyStarted) InvalidState.
Proof.
  unfold raises. split.
  - rewrite !start_game_cases. destruct (games w !! game_id) as [game|]; [|done].
    destruct (Game.started game); [done|]. intros Hne. by rewrite decide_True.
  - intros game' w' player_count'. rewrite !start_game_cases.
    destruct (games w !! game_id) as [game|]; [|done].
    destruct (Game.started game); [done|]. case_decide; [done|].
    destruct (draw_characters editions_data (Game.edition game) player_count w)
      as [[characters|e] w1]; [|done].
    intros [= <- <-]. simpl. by rewrite lookup_insert_eq.
Qed.

(** C1. When [start_game] succeeds on a game of a reachable state, the
    shuffled list of characters that the assignment engine returned has been
    zipped with the players that are not the storyteller, in join order: the
    [i]-th of them has the [i]-th character, and none when the list has no
    [i]-th element; they are the same players otherwise.  The game is started
    and holds the player count.  And the call does succeed whenever the game
    is not started, the count matches and the engine returns a list, however
    short. *)
Theorem start_game_assigns game_id player_count w game :
  reachable editions_data w →
  games w !! game_id = Some game →
  (∀ game' w',
     start_game editions_data game_id player_count w = (Ok game', w') →
     ∃ characters w1,
       draw_characters editions_data (Game.edition game) player_count w
         = (Ok characters, w1) ∧
       w' = set_games <[game_id := game']> w1 ∧
       games w' = <[game_id := game']> (games w) ∧
       Game.started game' = true ∧
       Game.player_count game' = Some player_count ∧
       length (participants game') = length (participants game) ∧
       ∀ i p, participants game !! i = Some p →
         ∃ p', participants game' !! i = Some p' ∧
               Player.id p' = Player.id p ∧
               Player.name p' = Player.name p ∧
               Player.character p' = characters !! i) ∧
  (∀ characters w1,
     Game.started game = false →
     Z.of_nat (length (participants game)) = player_count →
     draw_characters editions_data (Game.edition game) player_count w
       = (Ok characters, w1) →
     ∃ game',
       start_game editions_data game_id player_count w
         = (Ok game', set_games <[game_id := game']> w1)).
Proof.
  intros Hw Hgame. rewrite start_game_cases, Hgame. split.
  - intros game' w'. destruct (Game.started game) eqn:Hstarted; [done|].
    case_decide; [done|].
    pose proof (keeps_games_draw_characters (Game.edition game) player_count w) as Hk.
    destruct (draw_characters editions_data (Game.edition game) player_count w)
      as [[characters|e] w1]; [|done].
    intros [= <- <-]. exists characters, w1.
    assert (∀ i, participants (started_game game player_count characters) !! i =
              (λ p, from_option (λ c, Player.set_character c p) p (characters !! i))
                <$> participants game !! i) as Hlookup.
    { intros i. apply lookup_participants_deal. }
    split_and!; try done.
    + simpl. by rewrite (Hk _ _ eq_refl).
    + apply length_participants_deal.
    + intros i p Hp. rewrite Hlookup, Hp. simpl. eexists. split; [done|].
      destruct (reachable_game_ok _ _ _ Hw Hgame) as [_ Hnone].
      specialize (Hnone Hstarted). rewrite Forall_forall in Hnone.
      assert (Player.character p = None) as Hch.
      { apply Hnone. apply list_elem_of_lookup_2 in Hp.
        by apply list_elem_of_filter in Hp as [_ ?]. }
      by destruct (characters !! i).
  - intros characters w1 -> Hcount ->. rewrite decide_False by (by intros ?).
    by eexists.
Qed.

(** C5. For a known edition and a distribution whose categories are
    categories of the edition and of [CharacterType] and whose counts are not
    negative, [_select_random_characters] raises nothing, leaves the games
    alone and returns the concatenation, in the order of the distribution, of
    one chunk per item: [min(count, available)] characters made from entries
    drawn without replacement from the pool of the category, each tagged with
    the category.  A count above the size of the pool yields the whole pool. *)
Theorem select_random_characters_spec edition edition_data distribution w :
  editions_data !! edition = Some edition_data →
  Forall (item_ok (edition_characters edition_data)) distribution →
  ∃ chunks w',
    _select_random_characters editions_data edition distribution w
      = (Ok (mjoin chunks), w') ∧
    games w' = games w ∧
    Forall2 (category_chunk (edition_characters edition_data)) distribution chunks ∧
    Forall2 (λ item chunk,
               ∃ available,
                 edition_characters edition_data !! item.1 = Some available ∧
                 length chunk = Z.to_nat item.2 `min` length available ∧
                 Forall (λ c, (Character.type c ≫= Some ∘ CharacterType_value)
                              = Some item.1) chunk)
      distribution chunks.
Proof.
  intros Hedition Hitems.
  pose proof (keeps_games_select_random_characters edition distribution w) as Hk.
  unfold _select_random_characters in *. rewrite Hedition in *.
  destruct (select_loop_Ok _ _ [] w Hitems) as (result & w' & Hsel).
  destruct (select_loop_inv _ _ _ _ _ _ Hsel) as (chunks & -> & Hchunks).
  exists chunks, w'. split_and!; [done|by eapply Hk|done|].
  eapply Forall2_impl; [exact Hchunks|].
  intros item chunk (available & positions & chosen & Hav & _ & Hlen & _ & Hch).
  exists available. split_and!; [done|by rewrite <-(Forall2_length _ _ _ Hch)|].
  apply Forall_forall. intros c Hc. apply list_elem_of_lookup in Hc as [i Hc].
  destruct (Forall2_lookup_r _ _ _ _ _ Hch Hc) as (char & _ & ty & Hty & ->).
  simpl. f_equal. by apply CharacterType_value_of_value.
Qed.

Lemma draw_characters_inv edition player_count w characters w1 :
  draw_characters editions_data edition player_count w = (Ok characters, w1) →
  ∃ edition_data distribution chunks,
    editions_data !! edition = Some edition_data ∧
    edition_setup edition_data !! pretty player_count = Some distribution ∧
    Forall2 (category_chunk (edition_characters edition_data)) distribution chunks ∧
    characters ≡ₚ mjoin chunks.
Proof.
  unfold draw_characters. intros H.
  apply bind_inv in H as [(distribution & w2 & Hd & H)|(e & _ & ?)]; [|done].
  apply bind_inv in H as [(selected & w3 & Hs & H)|(e & _ & ?)]; [|done].
  unfold _get_role_distribution in Hd. unfold _select_random_characters in Hs.
  destruct (editions_data !! edition) as [edition_data|]; [|done].
  destruct (edition_setup edition_data !! pretty player_count) as [d|] eqn:Hsetup;
    [|done].
  unfold mret, M_ret in Hd. simplify_eq.
  apply select_loop_inv in Hs as (chunks & -> & Hchunks).
  destruct (random_shuffle_Ok (mjoin chunks) w3) as (y & w4 & Hy & Hperm).
  simpl in H. rewrite H in Hy. simplify_eq.
  by exists edition_data, distribution, chunks.
Qed.

(** C2. When [start_game] succeeds on a game of a reachable state, with [N]
    players that are not the storyteller, the number of players with a
    character is [N], or the length of the list of characters drawn when that
    is smaller; and, the identifiers of the catalog being unique, no two
    players of the game have characters with the same identifier. *)
Theorem start_game_characters_unique game_id player_count w game' w' :
  reachable editions_data w →
  map_Forall (λ _ edition_data, edition_ok edition_data) editions_data →
  start_game editions_data game_id player_count w = (Ok game', w') →
  Z.of_nat (length (participants game')) = player_count ∧
  (∃ game characters w1,
     games w !! game_id = Some game ∧
     draw_characters editions_data (Game.edition game) player_count w
       = (Ok characters, w1) ∧
     length (filter (λ p, is_Some (Player.character p)) (Game.players game'))
       = length (participants game') `min` length characters) ∧
  ∀ i j p q c d,
    Game.players game' !! i = Some p → Game.players game' !! j = Some q →
    Player.character p = Some c → Player.character q = Some d →
    Character.id c = Character.id d →
    i = j.
Proof.
  intros Hw Hcatalog. rewrite start_game_cases.
  destruct (games w !! game_id) as [game|] eqn:Hgame; [|done].
  destruct (Game.started game) eqn:Hstarted; [done|].
  case_decide as Hcount; [done|].
  destruct (draw_characters editions_data (Game.edition game) player_count w)
    as [[characters|e] w1] eqn:Hdraw; [|done].
  intros [= <- <-].
  destruct (reachable_game_ok _ _ _ Hw Hgame) as [_ Hnone].
  specialize (Hnone Hstarted).
  pose proof (characters_deal _ characters Hnone) as Hassigned.
  assert (length (participants (started_game game player_count characters))
          = length (participants game)) as Hlen by apply length_participants_deal.
  split_and!.
  - by rewrite Hlen.
  - exists game, characters, w1. split_and!; [done..|].
    rewrite length_omap_filter. simpl. rewrite Hassigned, length_take, Hlen. done.
  - intros i j p q c d Hp Hq Hc Hd Hid.
    eapply (NoDup_omap_inj Player.character Character.id); [|done..].
    simpl. rewrite Hassigned.
    destruct (draw_characters_inv _ _ _ _ _ Hdraw)
      as (edition_data & distribution & chunks & Hed & Hsetup & Hchunks & Hperm).
    destruct (Hcatalog _ _ Hed) as [Hids Hkeys].
    apply (sublist_NoDup _ (Character.id <$> characters));
      [|apply fmap_sublist, sublist_take].
    rewrite Hperm. eapply selection_NoDup; [done| |done].
    by eapply Hkeys.
Qed.

(** X20. A started game is never written to again by [join_game] or
    [start_game], whatever game they are called for: its characters are
    neither reassigned nor cleared. *)
Lemma started_game_frozen w game_id game :
  games w !! game_id = Some game →
  Game.started game = true →
  (∀ player_id game_id' player_name,
     games (join_game player_id game_id' player_name w).2 !! game_id = Some game) ∧
  (∀ game_id' player_count,
     games (start_game editions_data game_id' player_count w).2 !! game_id
       = Some game).
Proof.
  intros Hgame Hstarted. split.
  - intros player_id game_id' player_name. rewrite join_game_cases.
    destruct (games w !! game_id') as [g|] eqn:Hg; [|done].
    destruct (Game.started g) eqn:Hs; [done|]. simpl.
    rewrite lookup_insert_ne; [done|]. intros ->. congruence.
  - intros game_id' player_count. rewrite start_game_cases.
    destruct (games w !! game_id') as [g|] eqn:Hg; [|done].
    destruct (Game.started g) eqn:Hs; [done|]. case_decide; [done|].
    pose proof (keeps_games_draw_characters (Game.edition g) player_count w) as Hk.
    destruct (draw_characters editions_data (Game.edition g) player_count w)
      as [[characters|e] w1]; simpl; rewrite (Hk _ _ eq_refl); [|done].
    rewrite lookup_insert_ne; [done|]. intros ->. congruence.
Qed.

(** C9. A call of [create_game], [join_game] or [start_game] that raises
    leaves [games], and so every game in it, as it was. *)
Theorem mutating_operations_atomic w e w' :
  (∀ game_id player_id edition storyteller_name,
     create_game editions_data game_id player_id edition storyteller_name w
       = (Raise e, w') → games w' = games w) ∧
  (∀ player_id game_id player_name,
     join_game player_id game_id player_name w = (Raise e, w') →
     games w' = games w) ∧
  (∀ game_id player_count,
     start_game editions_data game_id player_count w = (Raise e, w') →
     games w' = games w).
Proof.
  split_and!.
  - intros game_id player_id edition storyteller_name.
    rewrite create_game_cases. destruct (editions_data !! edition); [done|].
    by intros [= _ <-].
  - intros player_id game_id player_name. rewrite join_game_cases.
    destruct (games w !! game_id) as [game|]; [|by intros [= _ <-]].
    destruct (Game.started game); [by intros [= _ <-]|done].
  - intros game_id player_count. rewrite start_game_cases.
    destruct (games w !! game_id) as [game|]; [|by intros [= _ <-]].
    destruct (Game.started game); [by intros [= _ <-]|].
    case_decide; [by intros [= _ <-]|].
    pose proof (keeps_games_draw_characters (Game.edition game) player_count w) as Hk.
    destruct (draw_characters editions_data (Game.edition game) player_count w)
      as [[characters|e1] w1]; [done|].
    intros [= _ <-]. by apply (Hk (Raise e1)).
Qed.

(** ** The read views *)

Lemma get_night_order_Ok game_id w game :
  games w !! game_id = Some game →
  Game.started game = true →
  ∃ night_order, get_night_order game_id w = (Ok night_order, w).
Proof.
  intros Hgame Hstarted. unfold get_night_order.
  rewrite (bind_Ok _ _ w (games w !! game_id) w) by done.
  rewrite Hgame, Hstarted. by eexists.
Qed.

(** C8. [get_player_role] never raises and changes nothing.  It returns no
    character when no game has the id or no player of the game has the player
    id, and otherwise the character field of the first player with that id,
    which is empty as long as none has been assigned. *)
Theorem get_player_role_spec game_id player_id w :
  ∃ role,
    get_player_role game_id player_id w = (Ok role, w) ∧
    match games w !! game_id with
    | None => role = None
    | Some game =>
      (Forall (λ p, Player.id p ≠ player_id) (Game.players game) → role = None) ∧
      (∀ i p, Game.players game !! i = Some p →
              Player.id p = player_id →
              (∀ j q, j < i → Game.players game !! j = Some q →
                      Player.id q ≠ player_id) →
              role = Player.character p)
    end.
Proof.
  unfold get_player_role.
  rewrite (bind_Ok _ _ w (games w !! game_id) w) by done.
  destruct (games w !! game_id) as [game|]; [|by eexists].
  destruct (list_find _ _) as [[i p]|] eqn:Hfind.
  - eexists. split; [done|].
    apply list_find_Some in Hfind as (Hi & Hp & Hbefore). split.
    + intros Hall. rewrite Forall_forall in Hall.
      destruct (Hall p); [|done]. by eapply list_elem_of_lookup_2.
    + intros i' p' Hi' Hp' Hbefore'.
      destruct (Nat.lt_trichotomy i i') as [Hlt|[->|Hlt]].
      * by destruct (Hbefore' _ _ Hlt Hi).
      * by simplify_eq.
      * by destruct (Hbefore _ _ Hi' Hlt).
  - eexists. split; [done|]. split; [done|].
    intros i p Hi Hp _. apply list_find_None in Hfind.
    rewrite Forall_forall in Hfind. destruct (Hfind p); [|done].
    by eapply list_elem_of_lookup_2.
Qed.

(** C10. In every reachable state the storyteller of a game has no character,
    and [get_player_role] with the storyteller's own id returns none, whether
    the game is started or not. *)
Theorem storyteller_has_no_character w game_id game p :
  reachable editions_data w →
  games w !! game_id = Some game →
  p ∈ Game.players game →
  Player.is_storyteller p = true →
  Player.character p = None ∧
  get_player_role game_id (Player.id p) w = (Ok None, w).
Proof.
  intros Hw Hgame Hp Hst.
  destruct (reachable_game_ok _ _ _ Hw Hgame)
    as [(storyteller & others & Hps & Hst' & Hch & Hothers) _].
  assert (p = storyteller) as ->.
  { rewrite Hps in Hp. apply elem_of_cons in Hp as [?|Hp]; [done|].
    rewrite Forall_forall in Hothers. apply Hothers in Hp. congruence. }
  split; [done|]. unfold get_player_role.
  rewrite (bind_Ok _ _ w (games w !! game_id) w) by done.
  rewrite Hgame, Hps. simpl. rewrite decide_True by done. simpl. by rewrite Hch.
Qed.

(** C4. For a started game [get_night_order] returns two lists of
    [{name, ability, order}] entries: those of the characters in the game with
    a positive first-night rank, ascending by that rank, and likewise for the
    other-nights rank; characters of rank 0 are in neither list, and characters
    of equal rank keep the join order of their players.  For a game that is not
    started it raises, and changes nothing. *)
Theorem get_night_order_spec game_id w game :
  games w !! game_id = Some game →
  if Game.started game then
    ∃ first other,
      get_night_order game_id w =
        (Ok (NightOrder.mk
               ((λ c, NightEntry.mk (Character.name c) (Character.ability c)
                        (Character.first_night c)) <$> first)
               ((λ c, NightEntry.mk (Character.name c) (Character.ability c)
                        (Character.other_nights c)) <$> other)), w) ∧
      night_list Character.first_night (characters_in_game game) first ∧
      night_list Character.other_nights (characters_in_game game) other
  else
    raises (get_night_order game_id) w (ValueError NotFoundOrNotStarted) InvalidState.
Proof.
  intros Hgame. unfold raises, get_night_order.
  rewrite !(bind_Ok _ _ w (games w !! game_id) w) by done. rewrite Hgame.
  destruct (Game.started game); [|done]. simpl.
  eexists _, _. split; [done|].
  split; (split_and!;
    [apply sorted_Permutation | apply sorted_Sorted
    | intros r Hr; rewrite sorted_stable, list_filter_filter;
      apply list_filter_iff; intros c; lia]).
Qed.

(** C7. [get_storyteller_overview] raises the storyteller-only error, of the
    kind Forbidden, when [player_id] is not the id of a storyteller of the
    game, started or not.  When it is, the call returns, for every player that
    is not the storyteller and in join order, the name and the name, ability
    and category of the character, all three absent when there is no
    character; and the night order when the game is started, nothing
    otherwise. *)
Theorem get_storyteller_overview_spec game_id player_id w game :
  games w !! game_id = Some game →
  (Forall (λ p, Player.is_storyteller p = true → Player.id p ≠ player_id)
     (Game.players game) →
   raises (get_storyteller_overview game_id player_id) w
     (ValueError StorytellerOnly) Forbidden) ∧
  (Exists (λ p, Player.is_storyteller p = true ∧ Player.id p = player_id)
     (Game.players game) →
   ∃ overview,
     get_storyteller_overview game_id player_id w = (Ok overview, w) ∧
     Overview.game_id overview = Game.id game ∧
     Overview.edition overview = Game.edition game ∧
     Overview.started overview = Game.started game ∧
     Forall2
       (λ p o,
          PlayerOverview.name o = Player.name p ∧
          match Player.character p with
          | Some c =>
            PlayerOverview.character o = Some (Character.name c) ∧
            PlayerOverview.ability o = Some (Character.ability c) ∧
            PlayerOverview.type o = Character.type c
          | None =>
            PlayerOverview.character o = None ∧
            PlayerOverview.ability o = None ∧
            PlayerOverview.type o = None
          end)
       (participants game) (Overview.players overview) ∧
     if Game.started game then
       ∃ night_order,
         get_night_order game_id w = (Ok night_order, w) ∧
         Overview.night_order overview = Some night_order
     else Overview.night_order overview = None).
Proof.
  intros Hgame. unfold raises, get_storyteller_overview.
  rewrite !(bind_Ok _ _ w (games w !! game_id) w) by done. rewrite Hgame.
  destruct (list_find _ _) as [[i p]|] eqn:Hfind; split.
  - intros Hall. apply list_find_Some in Hfind as (Hi & [Hid Hst] & _).
    rewrite Forall_forall in Hall. destruct (Hall p); try done.
    by eapply list_elem_of_lookup_2.
  - intros _.
    assert (Forall2
       (λ p o,
          PlayerOverview.name o = Player.name p ∧
          match Player.character p with
          | Some c =>
            PlayerOverview.character o = Some (Character.name c) ∧
            PlayerOverview.ability o = Some (Character.ability c) ∧
            PlayerOverview.type o = Character.type c
          | None =>
            PlayerOverview.character o = None ∧
            PlayerOverview.ability o = None ∧
            PlayerOverview.type o = None
          end)
       (participants game) (player_overview <$> participants game)) as Hplayers.
    { apply Forall2_fmap_r, Forall_Forall2_diag, Forall_forall.
      intros q _. split; [done|]. unfold player_overview.
      by destruct (Player.character q). }
    destruct (Game.started game) eqn:Hstarted.
    + destruct (get_night_order_Ok game_id w game Hgame Hstarted)
        as [night_order Hnight].
      rewrite (bind_Ok _ _ _ _ _ (bind_Ok _ _ _ _ _ Hnight)).
      eexists. split; [done|]. simpl. split_and!; try done. eauto.
    + eexists. split; [done|]. simpl. split_and!; done.
  - done.
  - intros Hex. apply list_find_None in Hfind.
    apply Exists_exists in Hex as (p & Hp & Hst & Hid).
    rewrite Forall_forall in Hfind. destruct (Hfind p Hp). done.
Qed.

End Properties.

(** * Further properties *)

Section MoreProperties.
Context (editions_data : gmap string EditionData).

(** ** The catalog *)

Lemma get_editions_ids :
  EditionInfo.id <$> get_editions editions_data = (map_to_list editions_data).*1.
Proof.
  unfold get_editions. rewrite <-list_fmap_compose. by apply list_fmap_ext.
Qed.

Lemma elem_of_get_editions_ids edition :
  edition ∈ EditionInfo.id <$> get_editions editions_data ↔
  is_Some (editions_data !! edition).
Proof.
  rewrite get_editions_ids, list_elem_of_fmap. split.
  - intros ([k v] & -> & Hin). apply elem_of_map_to_list in Hin. by exists v.
  - intros [v Hv]. exists (edition, v). split; [done|].
    by apply elem_of_map_to_list.
Qed.

(** X1. [get_editions], [create_game] and [get_edition_characters] know the
    same editions: for an identifier that [get_editions] lists the other two
    succeed, and for any other both raise the edition-not-found error and
    change nothing. *)
Theorem known_editions_agree edition game_id player_id storyteller_name w :
  if decide (edition ∈ EditionInfo.id <$> get_editions editions_data) then
    (∃ game w',
       create_game editions_data game_id player_id edition storyteller_name w
         = (Ok game, w')) ∧
    (∃ listing, get_edition_characters editions_data edition w = (Ok listing, w))
  else
    raises (create_game editions_data game_id player_id edition storyteller_name) w
      (ValueError (EditionNotFound edition)) NotFound ∧
    raises (get_edition_characters editions_data edition) w
      (ValueError (EditionNotFound edition)) NotFound.
Proof.
  unfold raises, get_edition_characters. rewrite !create_game_cases.
  case_decide as Hin; rewrite elem_of_get_editions_ids in Hin.
  - destruct Hin as [edition_data ->]. split; [by eexists _, _|by eexists].
  - destruct (editions_data !! edition) eqn:Hed; [|done].
    destruct Hin. by eexists.
Qed.

(** X2. [get_editions] lists every edition of the catalog once, under its
    key and with its name. *)
Theorem get_editions_spec :
  NoDup (EditionInfo.id <$> get_editions editions_data) ∧
  length (get_editions editions_data) = size editions_data ∧
  ∀ info, info ∈ get_editions editions_data ↔
    ∃ edition_data,
      editions_data !! EditionInfo.id info = Some edition_data ∧
      EditionInfo.name info = edition_name edition_data.
Proof.
  split_and!.
  - rewrite get_editions_ids. apply NoDup_fst_map_to_list.
  - unfold get_editions. by rewrite length_fmap, length_map_to_list.
  - unfold get_editions.
    intros [id name]. rewrite list_elem_of_fmap. simpl. split.
    + intros ([k v] & [= -> ->] & Hin). apply elem_of_map_to_list in Hin. eauto.
    + intros (edition_data & Hed & ->). exists (id, edition_data).
      split; [done|]. by apply elem_of_map_to_list.
Qed.

Lemma get_edition_characters_lookup edition edition_data w category :
  editions_data !! edition = Some edition_data →
  ∃ listing,
    get_edition_characters editions_data edition w = (Ok listing, w) ∧
    listing !! category =
      (fmap (λ char, TypedEntry.mk char category))
        <$> edition_characters edition_data !! category.
Proof.
  intros Hed. unfold get_edition_characters. rewrite Hed.
  eexists. split; [done|]. rewrite map_lookup_imap.
  by destruct (edition_characters edition_data !! category).
Qed.

(** ** Creating and looking up a game *)

(** X3. A game that [create_game] returns is the one [get_game] finds under
    its identifier afterwards: not started, without a player count, with the
    storyteller as its only player.  Whatever was stored under that identifier
    before is replaced, the other games are as they were, and the generator of
    random numbers is not touched. *)
Theorem create_game_get_game game_id player_id edition storyteller_name w game w' :
  create_game editions_data game_id player_id edition storyteller_name w
    = (Ok game, w') →
  get_game game_id w' = (Ok (Some game), w') ∧
  game = Game.mk game_id edition
           [Player.mk player_id storyteller_name None true] false None ∧
  (∀ other, other ≠ game_id → get_game other w' = (Ok (games w !! other), w')) ∧
  random w' = random w.
Proof.
  rewrite create_game_cases. destruct (editions_data !! edition); [|done].
  intros [= <- <-]. unfold get_game, games_get. simpl.
  split_and!; try done.
  - by rewrite lookup_insert_eq.
  - intros other Hne. by rewrite lookup_insert_ne.
Qed.

(** ** What the games of a reachable state record *)

(** X4. In every reachable state a game is stored under its own
    identifier, its edition is an edition of the catalog, and it holds a player
    count exactly when it is started: then the number of its players that are
    not the storyteller. *)
Theorem reachable_game_recorded w game_id game :
  reachable editions_data w →
  games w !! game_id = Some game →
  game_recorded editions_data game_id game.
Proof.
  intros Hw. revert game_id game.
  induction Hw as [random|w gid pid edition name _ IH|w pid gid name _ IH
                   |w gid player_count _ IH]; intros game_id game.
  - simpl. by rewrite lookup_empty.
  - rewrite create_game_cases.
    destruct (editions_data !! edition) as [edition_data|] eqn:Hed; [|by eauto].
    simpl. destruct (decide (game_id = gid)) as [->|Hne].
    + rewrite lookup_insert_eq. intros [= <-]. split_and!; simpl; [done| |done].
      by rewrite Hed.
    + rewrite lookup_insert_ne by done. eauto.
  - rewrite join_game_cases.
    destruct (games w !! gid) as [g|] eqn:Hg; [|by eauto].
    destruct (Game.started g) eqn:Hstarted; [by eauto|].
    simpl. destruct (decide (game_id = gid)) as [->|Hne].
    + rewrite lookup_insert_eq. intros [= <-].
      destruct (IH _ _ Hg) as (Hid & Hed & Hcount).
      split_and!; simpl; [done..|]. by rewrite Hstarted in *.
    + rewrite lookup_insert_ne by done. eauto.
  - rewrite start_game_cases.
    destruct (games w !! gid) as [g|] eqn:Hg; [|by eauto].
    destruct (Game.started g) eqn:Hstarted; [by eauto|].
    case_decide as Hcount; [by eauto|].
    pose proof (keeps_games_draw_characters editions_data (Game.edition g)
                  player_count w) as Hk.
    destruct (draw_characters editions_data (Game.edition g) player_count w)
      as [[characters|e] w1] eqn:Hdraw; simpl.
    + rewrite (Hk _ _ eq_refl).
      destruct (decide (game_id = gid)) as [->|Hne].
      * rewrite lookup_insert_eq. intros [= <-].
        destruct (IH _ _ Hg) as (Hid & Hed & _).
        split_and!; simpl; [done..|].
        unfold participants. simpl. rewrite length_participants_deal.
        fold (participants g). by rewrite Hcount.
      * rewrite lookup_insert_ne by done. eauto.
    + rewrite (Hk _ _ eq_refl). eauto.
Qed.

(** X5. Before a game of a reachable state is started nobody has a role
    in it: [get_player_role] returns none for every player id. *)
Theorem unstarted_game_no_roles w game_id game player_id :
  reachable editions_data w →
  games w !! game_id = Some game →
  Game.started game = false →
  get_player_role game_id player_id w = (Ok None, w).
Proof.
  intros Hw Hgame Hstarted.
  destruct (reachable_game_ok _ _ _ _ Hw Hgame) as [_ Hnone].
  specialize (Hnone Hstarted). unfold get_player_role.
  rewrite (bind_Ok _ _ w (games w !! game_id) w) by done. rewrite Hgame.
  destruct (list_find _ _) as [[i p]|] eqn:Hfind; [|done].
  apply list_find_Some in Hfind as (Hi & _ & _).
  rewrite Forall_forall in Hnone. rewrite (Hnone p); [done|].
  by eapply list_elem_of_lookup_2.
Qed.

(** ** More of [start_game] and of the selection *)

Lemma bind_assoc {A B C} (m : M A) (f : A → M B) (g : B → M C) w :
  ((m ≫= f) ≫= g) w = (m ≫= λ x, f x ≫= g) w.
Proof. unfold mbind, M_bind. by destruct (m w) as [[a|e] w1]. Qed.

Lemma select_loop_app characters_data d1 d2 selected w :
  select_loop characters_data (d1 ++ d2) selected w =
  (selected' ← select_loop characters_data d1 selected;
   select_loop characters_data d2 selected') w.
Proof.
  revert selected w. induction d1 as [|[char_type count] d1 IH];
    intros selected w; [done|]. simpl.
  destruct (characters_data !! char_type) as [available|];
    [|by rewrite (bind_Raise _ _ w (KeyError char_type) w)].
  rewrite bind_assoc.
  destruct (random_sample available (count `min` Z.of_nat (length available)) w)
    as [[chosen|e] w1] eqn:Hs;
    [|by rewrite !(bind_Raise _ _ _ _ _ Hs)].
  rewrite !(bind_Ok _ _ _ _ _ Hs), bind_assoc.
  destruct (mapM (make_character char_type) chosen w1) as [[new|e] w2] eqn:Hm;
    [|by rewrite !(bind_Raise _ _ _ _ _ Hm)].
  rewrite !(bind_Ok _ _ _ _ _ Hm). apply IH.
Qed.

Lemma draw_characters_Ok edition edition_data player_count distribution w :
  editions_data !! edition = Some edition_data →
  edition_setup edition_data !! pretty player_count = Some distribution →
  Forall (item_ok (edition_characters edition_data)) distribution →
  ∃ characters w1,
    draw_characters editions_data edition player_count w = (Ok characters, w1).
Proof.
  intros Hed Hsetup Hitems. unfold draw_characters.
  rewrite (bind_Ok _ _ w distribution w);
    [|by unfold _get_role_distribution; rewrite Hed, Hsetup].
  destruct (select_loop_Ok _ _ [] w Hitems) as (selected & w1 & Hsel).
  rewrite (bind_Ok _ _ w selected w1);
    [|by unfold _select_random_characters; rewrite Hed].
  destruct (random_shuffle_Ok selected w1) as (characters & w2 & Hsh & _).
  by exists characters, w2.
Qed.

(** X6. [start_game] succeeds whenever the game exists and is not
    started, the count is the number of its players that are not the
    storyteller, the edition has a distribution for that count, and every item
    of the distribution names a category of the edition and of
    [CharacterType] with a count that is not negative. *)
Theorem start_game_succeeds game_id player_count w game edition_data distribution :
  games w !! game_id = Some game →
  Game.started game = false →
  Z.of_nat (length (participants game)) = player_count →
  editions_data !! Game.edition game = Some edition_data →
  edition_setup edition_data !! pretty player_count = Some distribution →
  Forall (item_ok (edition_characters edition_data)) distribution →
  ∃ game' w',
    start_game editions_data game_id player_count w = (Ok game', w') ∧
    games w' = <[game_id := game']> (games w) ∧
    Game.started game' = true.
Proof.
  intros Hgame Hstarted Hcount Hed Hsetup Hitems.
  rewrite start_game_cases, Hgame, Hstarted, decide_False by (by intros ?).
  destruct (draw_characters_Ok _ _ _ _ w Hed Hsetup Hitems)
    as (characters & w1 & Hdraw).
  rewrite Hdraw. eexists _, _. split_and!; [done| |done].
  simpl. by rewrite (keeps_games_draw_characters _ _ _ _ _ _ Hdraw).
Qed.

(** X7. When the edition has no distribution for the player count,
    [start_game] raises the invalid-player-count error, although the count
    matches the players of the game, and changes nothing at all: no game, and
    no number of the generator is used. *)
Theorem start_game_invalid_count game_id player_count w game edition_data :
  games w !! game_id = Some game →
  Game.started game = false →
  Z.of_nat (length (participants game)) = player_count →
  editions_data !! Game.edition game = Some edition_data →
  edition_setup edition_data !! pretty player_count = None →
  raises (start_game editions_data game_id player_count) w
    (ValueError (InvalidPlayerCount player_count)) InvalidArgument.
Proof.
  intros Hgame Hstarted Hcount Hed Hsetup. split; [|done].
  rewrite start_game_cases, Hgame, Hstarted, decide_False by (by intros ?).
  unfold draw_characters.
  rewrite (bind_Raise _ _ w (ValueError (InvalidPlayerCount player_count)) w);
    [done|].
  unfold _get_role_distribution. by rewrite Hed, Hsetup.
Qed.

(** X8. [_select_random_characters] stops at the first item it cannot
    serve, after the items before it have been served: with a [KeyError] of the
    category when the edition has no such category, with the [ValueError] of
    [random.sample] when the count is negative, and with a [ValidationError]
    when characters are drawn for a category that is not one of
    [CharacterType].  The games are untouched in each case. *)
Theorem select_random_characters_errors edition edition_data served
    char_type count rest w :
  editions_data !! edition = Some edition_data →
  Forall (item_ok (edition_characters edition_data)) served →
  (edition_characters edition_data !! char_type = None →
   ∃ w', _select_random_characters editions_data edition
           (served ++ (char_type, count) :: rest) w
         = (Raise (KeyError char_type), w') ∧ games w' = games w) ∧
  (is_Some (edition_characters edition_data !! char_type) →
   (count < 0)%Z →
   ∃ w', _select_random_characters editions_data edition
           (served ++ (char_type, count) :: rest) w
         = (Raise (ValueError SampleOutOfRange), w') ∧ games w' = games w) ∧
  (∀ available,
     edition_characters edition_data !! char_type = Some available →
     available ≠ [] → (0 < count)%Z →
     CharacterType_of_value char_type = None →
     ∃ w', _select_random_characters editions_data edition
             (served ++ (char_type, count) :: rest) w
           = (Raise ValidationError, w') ∧ games w' = games w).
Proof.
  intros Hed Hserved.
  pose proof (keeps_games_select_random_characters editions_data edition
                (served ++ (char_type, count) :: rest) w) as Hk.
  unfold _select_random_characters in *. rewrite Hed in *.
  destruct (select_loop_Ok _ _ [] w Hserved) as (selected & w1 & Hsel).
  rewrite select_loop_app, (bind_Ok _ _ _ _ _ Hsel) in *.
  cbn [select_loop] in *. split_and!.
  - intros Hnone. rewrite Hnone in *. exists w1. split; [done|]. by eapply Hk.
  - intros [available Hav] Hneg. rewrite Hav in *. exists w1.
    assert (random_sample available (count `min` Z.of_nat (length available)) w1
            = (Raise (ValueError SampleOutOfRange), w1)) as Hs.
    { unfold random_sample. by rewrite decide_False by lia. }
    rewrite (bind_Raise _ _ _ _ _ Hs) in *. split; [done|]. by eapply Hk.
  - intros available Hav Hne Hpos Hty. rewrite Hav in *.
    destruct (random_sample_Ok available
                (count `min` Z.of_nat (length available)) w1)
      as (positions & chosen & w2 & Hs & Hlen & _); [lia|].
    rewrite (bind_Ok _ _ _ _ _ Hs) in *. exists w2.
    destruct chosen as [|char chosen].
    { destruct available; [done|]. simpl in Hlen. lia. }
    assert (mapM (make_character char_type) (char :: chosen) w2
            = (Raise ValidationError, w2)) as Hm.
    { simpl. rewrite (bind_Raise _ _ _ ValidationError w2); [done|].
      unfold make_character. by rewrite Hty. }
    rewrite (bind_Raise _ _ _ _ _ Hm) in *. split; [done|]. by eapply Hk.
Qed.

(** X9. Items that draw nothing cost nothing: when every item of the
    distribution has the count 0 or a category whose pool is empty,
    [_select_random_characters] returns the empty list and changes nothing, not
    even the generator; the categories need not be categories of
    [CharacterType]. *)
Theorem select_random_characters_nothing edition edition_data distribution w :
  editions_data !! edition = Some edition_data →
  Forall (λ item, ∃ available,
            edition_characters edition_data !! item.1 = Some available ∧
            (item.2 = 0%Z ∨ (0 ≤ item.2)%Z ∧ available = [])) distribution →
  _select_random_characters editions_data edition distribution w = (Ok [], w).
Proof.
  intros Hed Hitems. unfold _select_random_characters. rewrite Hed.
  induction Hitems as [|[char_type count] d (available & Hav & Hzero) _ IH];
    [done|].
  simpl in *. rewrite Hav.
  assert (random_sample available (count `min` Z.of_nat (length available)) w
          = (Ok [], w)) as Hs.
  { unfold random_sample. rewrite decide_True by lia.
    replace (Z.to_nat (count `min` Z.of_nat (length available))) with 0; [done|].
    destruct Hzero as [->|[? ->]]; simpl; lia. }
  rewrite (bind_Ok _ _ _ _ _ Hs). simpl.
  rewrite (bind_Ok _ _ w [] w) by done. exact IH.
Qed.

Lemma supply_length characters_data distribution chunks :
  Forall2 (category_chunk characters_data) distribution chunks →
  length (mjoin chunks) = supply characters_data distribution.
Proof.
  unfold supply.
  induction 1 as [|item chunk distribution chunks Hchunk _ IH]; [done|].
  csimpl. rewrite length_app, IH. f_equal.
  destruct Hchunk as (available & positions & chosen & Hav & _ & Hlen & _ & Hch).
  rewrite Hav. simpl. by rewrite <-(Forall2_length _ _ _ Hch).
Qed.

(** X10. The number of players that [start_game] gives a character
    does not depend on chance: it is the number of players that are not the
    storyteller or, when that is smaller, what the distribution of the count
    yields from the pools of the edition.  When the pools yield enough, every
    player that is not the storyteller has a character. *)
Theorem start_game_assigned_count game_id player_count w game game' w'
    edition_data distribution :
  reachable editions_data w →
  games w !! game_id = Some game →
  start_game editions_data game_id player_count w = (Ok game', w') →
  editions_data !! Game.edition game = Some edition_data →
  edition_setup edition_data !! pretty player_count = Some distribution →
  length (characters_in_game game')
    = length (participants game')
      `min` supply (edition_characters edition_data) distribution ∧
  (length (participants game')
     ≤ supply (edition_characters edition_data) distribution →
   Forall (λ p, is_Some (Player.character p)) (participants game')).
Proof.
  intros Hw Hgame Hstart Hed Hsetup. rewrite start_game_cases, Hgame in Hstart.
  destruct (Game.started game) eqn:Hstarted; [done|].
  case_decide as Hcount; [done|].
  destruct (draw_characters editions_data (Game.edition game) player_count w)
    as [[characters|e] w1] eqn:Hdraw; [|done].
  injection Hstart as <- <-.
  destruct (draw_characters_inv _ _ _ _ _ _ Hdraw)
    as (ed' & d' & chunks & Hed' & Hsetup' & Hchunks & Hperm).
  simplify_eq.
  assert (length characters = supply (edition_characters edition_data) distribution)
    as Hsupply.
  { by rewrite Hperm, (supply_length _ _ _ Hchunks). }
  destruct (reachable_game_ok _ _ _ _ Hw Hgame) as [_ Hnone].
  specialize (Hnone Hstarted).
  assert (length (participants (started_game game
                                  (Z.of_nat (length (participants game)))
                                  characters)) = length (participants game))
    as Hlen by apply length_participants_deal.
  rewrite Hlen, <-Hsupply. split.
  - unfold characters_in_game. simpl.
    by rewrite (characters_deal _ _ Hnone), length_take.
  - intros Hle. apply Forall_lookup. intros i p' Hp'.
    unfold participants in Hp'. simpl in Hp'.
    rewrite lookup_participants_deal in Hp'.
    destruct (filter _ (Game.players game) !! i) as [p|] eqn:Hp; [|done].
    assert (i < length (participants game)) as Hi by (by eapply lookup_lt_Some).
    destruct (lookup_lt_is_Some_2 characters i) as [c Hc]; [lia|].
    rewrite Hc in Hp'. simpl in Hp'. injection Hp' as <-. by eexists.
Qed.

Lemma draw_characters_elem edition player_count w characters w1 c :
  draw_characters editions_data edition player_count w = (Ok characters, w1) →
  c ∈ characters →
  ∃ edition_data ty available char,
    editions_data !! edition = Some edition_data ∧
    edition_characters edition_data !! CharacterType_value ty = Some available ∧
    char ∈ available ∧
    c = character_of ty char.
Proof.
  intros Hdraw Hc.
  destruct (draw_characters_inv _ _ _ _ _ _ Hdraw)
    as (edition_data & distribution & chunks & Hed & _ & Hchunks & Hperm).
  rewrite Hperm in Hc. apply list_elem_of_join in Hc as (chunk & Hc & Hchunk).
  apply list_elem_of_lookup in Hchunk as [k Hk].
  destruct (Forall2_lookup_r _ _ _ _ _ Hchunks Hk)
    as (item & _ & available & positions & chosen & Hav & _ & _ & [_ Hpos] & Hch).
  apply list_elem_of_lookup in Hc as [i Hi].
  destruct (Forall2_lookup_r _ _ _ _ _ Hch Hi) as (char & Hchar & ty & Hty & ->).
  destruct (Forall2_lookup_r _ _ _ _ _ Hpos Hchar) as (pos & _ & Hlook).
  exists edition_data, ty, available, char. split_and!; [done| |by eapply list_elem_of_lookup_2|done].
  by rewrite (CharacterType_value_of_value _ _ Hty).
Qed.

Lemma reachable_characters_from_catalog w game_id game p c :
  reachable editions_data w →
  games w !! game_id = Some game →
  p ∈ Game.players game →
  Player.character p = Some c →
  ∃ edition_data ty available char,
    editions_data !! Game.edition game = Some edition_data ∧
    edition_characters edition_data !! CharacterType_value ty = Some available ∧
    char ∈ available ∧
    c = character_of ty char.
Proof.
  intros Hw. revert game_id game p c.
  induction Hw as [random|w gid pid edition name _ IH|w pid gid name _ IH
                   |w gid player_count Hw IH]; intros game_id game p c.
  - simpl. by rewrite lookup_empty.
  - rewrite create_game_cases.
    destruct (editions_data !! edition) as [edition_data|] eqn:Hed; [|by eauto].
    simpl. destruct (decide (game_id = gid)) as [->|Hne].
    + rewrite lookup_insert_eq. intros [= <-]. simpl.
      intros ->%list_elem_of_singleton. done.
    + rewrite lookup_insert_ne by done. eauto.
  - rewrite join_game_cases.
    destruct (games w !! gid) as [g|] eqn:Hg; [|by eauto].
    destruct (Game.started g) eqn:Hstarted; [by eauto|].
    simpl. destruct (decide (game_id = gid)) as [->|Hne].
    + rewrite lookup_insert_eq. intros [= <-]. simpl.
      intros [Hp| ->%list_elem_of_singleton]%elem_of_app; [|done].
      intros Hc. by apply (IH _ _ _ _ Hg Hp).
    + rewrite lookup_insert_ne by done. eauto.
  - rewrite start_game_cases.
    destruct (games w !! gid) as [g|] eqn:Hg; [|by eauto].
    destruct (Game.started g) eqn:Hstarted; [by eauto|].
    case_decide as Hcount; [by eauto|].
    pose proof (keeps_games_draw_characters editions_data (Game.edition g)
                  player_count w) as Hk.
    destruct (draw_characters editions_data (Game.edition g) player_count w)
      as [[characters|e] w1] eqn:Hdraw; simpl.
    + rewrite (Hk _ _ eq_refl).
      destruct (decide (game_id = gid)) as [->|Hne].
      * rewrite lookup_insert_eq. intros [= <-]. simpl. intros Hp Hc.
        destruct (reachable_game_ok _ _ _ _ Hw Hg) as [_ Hnone].
        specialize (Hnone Hstarted).
        assert (c ∈ omap Player.character (deal (Game.players g) characters))
          as Hin by (apply list_elem_of_omap; eauto).
        rewrite (characters_deal _ _ Hnone) in Hin.
        apply elem_of_take in Hin as (k & Hin & _).
        eapply draw_characters_elem; [done|]. by eapply list_elem_of_lookup_2.
      * rewrite lookup_insert_ne by done. eauto.
    + rewrite (Hk _ _ eq_refl). eauto.
Qed.

(** X11. In every reachable state, every character that a player holds
    is one of the characters that [get_edition_characters] lists for the
    edition of the game, under the category the character is tagged with. *)
Theorem reachable_characters_listed w game_id game p c :
  reachable editions_data w →
  games w !! game_id = Some game →
  p ∈ Game.players game →
  Player.character p = Some c →
  ∃ listing,
    get_edition_characters editions_data (Game.edition game) w = (Ok listing, w) ∧
    listed listing c.
Proof.
  intros Hw Hgame Hp Hc.
  destruct (reachable_characters_from_catalog _ _ _ _ _ Hw Hgame Hp Hc)
    as (edition_data & ty & available & char & Hed & Hav & Hchar & ->).
  destruct (get_edition_characters_lookup _ _ w (CharacterType_value ty) Hed)
    as (listing & Hlisting & Hlookup).
  exists listing. split; [done|].
  rewrite Hav in Hlookup. eexists ty, _, char. split_and!; [done| |done].
  apply list_elem_of_fmap. eauto.
Qed.




(** ** The endpoints of src/main.py *)

Lemma random_sample_Raise {A} (population : list A) k w e w' :
  random_sample population k w = (Raise e, w') →
  e = ValueError SampleOutOfRange.
Proof.
  unfold random_sample. case_decide as Hk; [|by intros [= <- _]].
  destruct (sample_loop_Ok (Z.to_nat k) (length population) population w)
    as (? & ? & ? & Hok & _); [lia|]. congruence.
Qed.

Lemma mapM_make_character_Raise char_type chosen w e w' :
  mapM (make_character char_type) chosen w = (Raise e, w') →
  e = ValidationError.
Proof.
  destruct (CharacterType_of_value char_type) as [ty|] eqn:Hty.
  - by rewrite (mapM_make_character_Ok _ ty).
  - destruct chosen as [|char chosen]; [done|]. simpl.
    rewrite (bind_Raise _ _ _ ValidationError w);
      [|by unfold make_character; rewrite Hty].
    by intros [= <- _].
Qed.

Lemma select_loop_Raise characters_data distribution selected w e w' :
  select_loop characters_data distribution selected w = (Raise e, w') →
  e = ValueError SampleOutOfRange ∨ e = ValidationError ∨
  ∃ item, item ∈ distribution ∧ characters_data !! item.1 = None ∧
          e = KeyError item.1.
Proof.
  revert selected w. induction distribution as [|[char_type count] d IH];
    intros selected w H; simpl in H; [done|].
  destruct (characters_data !! char_type) as [available|] eqn:Hav.
  - apply bind_inv in H as [(chosen & w1 & _ & H)|(e1 & H & [= ->])];
      [|left; by eapply random_sample_Raise].
    apply bind_inv in H as [(new & w2 & _ & H)|(e1 & H & [= ->])];
      [|right; left; by eapply mapM_make_character_Raise].
    destruct (IH _ _ H) as [?|[?|(item & Hin & Hnone & ->)]]; [by left|by right; left|].
    right; right. exists item. split_and!; [by apply list_elem_of_further|done..].
  - injection H as <- _. right; right. exists (char_type, count).
    split_and!; [apply list_elem_of_here|done..].
Qed.

Lemma draw_characters_Raise edition player_count w e w1 :
  draw_characters editions_data edition player_count w = (Raise e, w1) →
  is_ValueError e = true ∨ ∃ key, e = KeyError key.
Proof.
  unfold draw_characters. intros H.
  apply bind_inv in H as [(distribution & w2 & _ & H)|(e1 & H & [= ->])].
  - apply bind_inv in H as [(selected & w3 & _ & H)|(e1 & H & [= ->])].
    + destruct (random_shuffle_Ok selected w3) as (? & ? & Hok & _). congruence.
    + unfold _select_random_characters in H.
      destruct (editions_data !! edition); [|injection H as <- _; eauto].
      apply select_loop_Raise in H as [->|[->|(item & _ & _ & ->)]]; eauto.
  - unfold _get_role_distribution in H.
    destruct (editions_data !! edition) as [edition_data|];
      [|injection H as <- _; eauto].
    destruct (edition_setup edition_data !! pretty player_count); [done|].
    injection H as <- _. by left.
Qed.

Lemma start_game_Ok_inv game_id player_count w game' w' :
  start_game editions_data game_id player_count w = (Ok game', w') →
  games w' !! game_id = Some game' ∧ Game.started game' = true.
Proof.
  rewrite start_game_cases. destruct (games w !! game_id) as [game|]; [|done].
  destruct (Game.started game); [done|]. case_decide; [done|].
  destruct (draw_characters editions_data (Game.edition game) player_count w)
    as [[characters|e] w1]; [|done].
  intros [= <- <-]. simpl. by rewrite lookup_insert_eq.
Qed.

Lemma start_game_Raise_inv game_id player_count w e w' :
  start_game editions_data game_id player_count w = (Raise e, w') →
  games w' = games w ∧ (is_ValueError e = true ∨ ∃ key, e = KeyError key).
Proof.
  rewrite start_game_cases.
  destruct (games w !! game_id) as [game|]; [|intros [= <- <-]; eauto].
  destruct (Game.started game); [intros [= <- <-]; eauto|].
  case_decide; [intros [= <- <-]; eauto|].
  pose proof (keeps_games_draw_characters editions_data (Game.edition game)
                player_count w) as Hk.
  destruct (draw_characters editions_data (Game.edition game) player_count w)
    as [[characters|e1] w1] eqn:Hdraw; [done|].
  intros [= <- <-]. split; [by eapply Hk|]. by eapply draw_characters_Raise.
Qed.

(** X13. What the start endpoint can answer, in any state.  A body: the
    game is then stored as started.  Status 400, for every [ValueError] of
    [start_game] and for pydantic's [ValidationError], or an exception that
    goes through uncaught; this is a [KeyError] and nothing else, for an
    edition or a category that the catalog does not have.  In both failures no
    game has changed. *)
Theorem api_start_game_spec game_id player_count w :
  ∃ r w',
    api_start_game editions_data game_id player_count w = (r, w') ∧
    match r with
    | Respond body =>
      ∃ game',
        start_game editions_data game_id player_count w = (Ok game', w') ∧
        games w' !! game_id = Some game' ∧
        Game.started game' = true ∧
        body = StartBody.mk (Game.id game') true
                 "Spiel gestartet! Rollen wurden verteilt."
    | HTTPException status_code d =>
      status_code = 400%Z ∧ games w' = games w ∧
      ∃ e, d = str e ∧ is_ValueError e = true ∧
           start_game editions_data game_id player_count w = (Raise e, w')
    | Uncaught e =>
      games w' = games w ∧ ∃ key, e = KeyError key
    | UncaughtStopIteration => False
    end.
Proof.
  unfold api_start_game, except_ValueError.
  destruct (start_game editions_data game_id player_count w)
    as [[game'|e] w'] eqn:Hstart.
  - rewrite (bind_Ok _ _ _ _ _ Hstart). eexists _, _. split; [done|].
    destruct (start_game_Ok_inv _ _ _ _ _ Hstart). by exists game'.
  - rewrite (bind_Raise _ _ _ _ _ Hstart).
    destruct (start_game_Raise_inv _ _ _ _ _ Hstart) as [Hgames Hkind].
    destruct (is_ValueError e) eqn:He; eexists _, _; (split; [done|]).
    + split_and!; [done..|]. by exists e.
    + split; [done|]. destruct Hkind as [?|?]; [congruence|done].
Qed.

(** X14. In a reachable state and with a catalog whose distributions
    can all be served, the start endpoint lets no exception through: it
    answers with a body or with status 400, and in the second case the state
    is exactly as before. *)
Theorem api_start_game_served game_id player_count w :
  reachable editions_data w →
  catalog_served editions_data →
  ∃ r w',
    api_start_game editions_data game_id player_count w = (r, w') ∧
    ((∃ body, r = Respond body) ∨
     (∃ msg, r = HTTPException 400 (str (ValueError msg)) ∧ w' = w)).
Proof.
  intros Hw Hserved. unfold api_start_game, except_ValueError.
  destruct (start_game editions_data game_id player_count w)
    as [[game'|e] w'] eqn:Hstart.
  { rewrite (bind_Ok _ _ _ _ _ Hstart). eexists _, _. split; [done|]. eauto. }
  rewrite (bind_Raise _ _ _ _ _ Hstart).
  assert (∃ msg, e = ValueError msg ∧ w' = w) as (msg & -> & ->).
  { rewrite start_game_cases in Hstart.
    destruct (games w !! game_id) as [game|] eqn:Hgame;
      [|injection Hstart as <- <-; eauto].
    destruct (Game.started game); [injection Hstart as <- <-; eauto|].
    case_decide; [injection Hstart as <- <-; eauto|].
    destruct (reachable_game_recorded _ _ _ Hw Hgame)
      as (_ & [edition_data Hed] & _).
    destruct (edition_setup edition_data !! pretty player_count)
      as [distribution|] eqn:Hsetup.
    - destruct (draw_characters_Ok _ _ _ _ w Hed Hsetup) as (? & ? & Hok).
      { by eapply (Hserved _ _ Hed). }
      rewrite Hok in Hstart. done.
    - assert (draw_characters editions_data (Game.edition game) player_count w
              = (Raise (ValueError (InvalidPlayerCount player_count)), w)) as Hd.
      { unfold draw_characters. apply bind_Raise.
        unfold _get_role_distribution. by rewrite Hed, Hsetup. }
      rewrite Hd in Hstart. injection Hstart as <- <-. eauto. }
  simpl. eexists _, _. split; [done|]. right. eauto.
Qed.

(** X15. The role endpoint never lets an exception through and changes
    nothing.  It answers with the name, ability and category of the character
    of a player of the game that has the player id, or else with status 404
    and the one detail it has. *)
Theorem api_get_player_role_spec game_id player_id w :
  ∃ r,
    api_get_player_role game_id player_id w = (r, w) ∧
    match r with
    | Respond body =>
      ∃ game p c,
        games w !! game_id = Some game ∧
        p ∈ Game.players game ∧ Player.id p = player_id ∧
        Player.character p = Some c ∧
        body = RoleBody.mk (Character.name c) (Character.ability c)
                 (Character.type c)
    | HTTPException status_code d =>
      status_code = 404%Z ∧ d = Literal "Rolle nicht gefunden"
    | _ => False
    end.
Proof.
  unfold api_get_player_role, get_player_role.
  rewrite (bind_Ok _ _ w (games w !! game_id) w) by done.
  destruct (games w !! game_id) as [game|] eqn:Hgame; [|by eexists].
  destruct (list_find _ _) as [[i p]|] eqn:Hfind; [|by eexists].
  apply list_find_Some in Hfind as (Hi & Hid & _).
  unfold mret, M_ret. destruct (Player.character p) as [c|] eqn:Hc; [|by eexists].
  eexists. split; [done|]. exists game, p, c.
  split_and!; [done|by eapply list_elem_of_lookup_2|done..].
Qed.

(** X16. In a reachable state the role endpoint answers 404 for a game
    that does not exist, for a game that is not started, for a player id that
    no player of the game has, and for the id of the storyteller. *)
Theorem api_get_player_role_not_found game_id player_id w :
  reachable editions_data w →
  match games w !! game_id with
  | None => True
  | Some game =>
    Game.started game = false ∨
    Forall (λ p, Player.id p ≠ player_id) (Game.players game) ∨
    Exists (λ p, Player.is_storyteller p = true ∧ Player.id p = player_id)
      (Game.players game)
  end →
  api_get_player_role game_id player_id w
    = (HTTPException 404 (Literal "Rolle nicht gefunden"), w).
Proof.
  intros Hw Hcase. unfold api_get_player_role, get_player_role.
  rewrite (bind_Ok _ _ w (games w !! game_id) w) by done.
  destruct (games w !! game_id) as [game|] eqn:Hgame; [|done].
  destruct (reachable_game_ok _ _ _ _ Hw Hgame)
    as [(storyteller & others & Hps & Hst & Hch & Hothers) Hnone].
  destruct (list_find _ _) as [[i p]|] eqn:Hfind; [|done].
  apply list_find_Some in Hfind as (Hi & Hid & Hbefore).
  assert (Player.character p = None) as Hc; [|by unfold mret, M_ret; rewrite Hc].
  destruct Hcase as [Hstarted|[Hall|Hex]].
  - specialize (Hnone Hstarted). rewrite Forall_forall in Hnone.
    apply Hnone. by eapply list_elem_of_lookup_2.
  - rewrite Forall_forall in Hall. destruct (Hall p); [|done].
    by eapply list_elem_of_lookup_2.
  - apply Exists_exists in Hex as (q & Hq & Hqst & Hqid).
    assert (q = storyteller) as ->.
    { rewrite Hps in Hq. apply elem_of_cons in Hq as [?|Hq]; [done|].
      rewrite Forall_forall in Hothers. apply Hothers in Hq. congruence. }
    destruct i as [|i].
    + rewrite Hps in Hi. by simplify_eq/=.
    + destruct (Hbefore 0 storyteller); [by rewrite Hps|lia|congruence].
Qed.

(** X17. The overview endpoint never lets an exception through and
    changes nothing; every failure is status 403: the one for a caller that is
    not the storyteller, and the one for a game that does not exist. *)
Theorem api_get_storyteller_overview_spec game_id storyteller_id w :
  ∃ r,
    api_get_storyteller_overview game_id storyteller_id w = (r, w) ∧
    match games w !! game_id with
    | None => r = HTTPException 403 (str (ValueError OverviewGameNotFound))
    | Some game =>
      if decide (Exists (λ p, Player.id p = storyteller_id ∧
                              Player.is_storyteller p = true) (Game.players game))
      then ∃ overview,
             r = Respond overview ∧
             get_storyteller_overview game_id storyteller_id w = (Ok overview, w)
      else r = HTTPException 403 (str (ValueError StorytellerOnly))
    end.
Proof.
  unfold api_get_storyteller_overview, except_ValueError, get_storyteller_overview.
  rewrite (bind_Ok _ _ w (games w !! game_id) w) by done.
  destruct (games w !! game_id) as [game|] eqn:Hgame; [|by eexists].
  destruct (list_find _ _) as [[i p]|] eqn:Hfind; case_decide as Hex.
  - destruct (Game.started game) eqn:Hstarted.
    + destruct (get_night_order_Ok game_id w game Hgame Hstarted)
        as [night_order Hnight].
      rewrite (bind_Ok _ _ _ _ _ (bind_Ok _ _ _ _ _ Hnight)).
      eexists. split; [done|]. by eexists.
    + eexists. split; [done|]. by eexists.
  - apply list_find_Some in Hfind as (Hi & Hp & _). destruct Hex.
    apply Exists_exists. exists p. split; [by eapply list_elem_of_lookup_2|done].
  - apply list_find_None in Hfind.
    apply Exists_exists in Hex as (p & Hp & Hcond).
    rewrite Forall_forall in Hfind. by destruct (Hfind p Hp).
  - by eexists.
Qed.

(** X18. The create endpoint answers 400 for an edition that
    [get_editions] does not list and otherwise with a body; it always finds
    the storyteller of the new game.  The identifiers of the body are those
    drawn, and they open the new game to the other endpoints: the overview for
    the storyteller shows no players and no night order, the game endpoint a
    game that is not started and has no players. *)
Theorem api_create_game_spec game_id player_id edition storyteller_name w :
  if decide (edition ∈ EditionInfo.id <$> get_editions editions_data) then
    ∃ w',
      api_create_game editions_data game_id player_id edition storyteller_name w
        = (Respond (CreateBody.mk game_id edition player_id
                      ("/join.html?game=" +:+ game_id)), w') ∧
      api_get_storyteller_overview game_id player_id w'
        = (Respond (Overview.mk game_id edition false [] None), w') ∧
      api_get_game game_id w'
        = (Respond (GameBody.mk game_id edition false 0), w')
  else
    api_create_game editions_data game_id player_id edition storyteller_name w
      = (HTTPException 400 (str (ValueError (EditionNotFound edition))), w).
Proof.
  unfold api_create_game. rewrite create_game_cases.
  case_decide as Hin; rewrite elem_of_get_editions_ids in Hin.
  - destruct Hin as [edition_data ->]. simpl.
    eexists. split; [done|].
    unfold api_get_storyteller_overview, except_ValueError,
      get_storyteller_overview, api_get_game, get_game.
    unfold mbind at 1, M_bind at 1, games_get. simpl.
    rewrite lookup_insert_eq. simpl. rewrite decide_True by done. done.
  - destruct (editions_data !! edition) eqn:Hed; [|done].
    destruct Hin. by eexists.
Qed.

(** X19. The join endpoint answers with the identifier drawn for the
    player, and the player count that the game endpoint shows is one higher
    afterwards; or it answers 400, for a game that does not exist or is
    started, and the state is as before.  It lets no exception through. *)
Theorem api_join_game_spec player_id game_id player_name w :
  ∃ r w',
    api_join_game player_id game_id player_name w = (r, w') ∧
    match r with
    | Respond body =>
      body = JoinBody.mk player_id player_name game_id ∧
      ∃ game,
        api_get_game game_id w
          = (Respond (GameBody.mk (Game.id game) (Game.edition game) false
                        (length (participants game))), w) ∧
        api_get_game game_id w'
          = (Respond (GameBody.mk (Game.id game) (Game.edition game) false
                        (S (length (participants game)))), w')
    | HTTPException status_code d =>
      status_code = 400%Z ∧ w' = w ∧
      (d = str (ValueError (GameNotFound game_id)) ∧ games w !! game_id = None ∨
       d = str (ValueError AlreadyStarted))
    | _ => False
    end.
Proof.
  unfold api_join_game, except_ValueError.
  destruct (join_game player_id game_id player_name w) as [[player|e] w1] eqn:Hjoin.
  - rewrite (bind_Ok _ _ _ _ _ Hjoin). rewrite join_game_cases in Hjoin.
    destruct (games w !! game_id) as [game|] eqn:Hgame; [|done].
    destruct (Game.started game) eqn:Hstarted; [done|].
    injection Hjoin as <- <-. eexists _, _. split; [done|]. split; [done|].
    exists game. unfold api_get_game, get_game, games_get, participants. simpl.
    rewrite Hgame, lookup_insert_eq, Hstarted. split; [done|].
    unfold Game.set_players. simpl.
    rewrite Hstarted, filter_app, length_app, filter_cons_True by done.
    simpl. by rewrite Nat.add_1_r.
  - rewrite (bind_Raise _ _ _ _ _ Hjoin). rewrite join_game_cases in Hjoin.
    destruct (games w !! game_id) as [game|] eqn:Hgame.
    + destruct (Game.started game) eqn:Hstarted; [|done].
      injection Hjoin as <- <-. simpl. eexists _, _. split; [done|].
      simpl. auto.
    + injection Hjoin as <- <-. simpl. eexists _, _. split; [done|].
      simpl. auto.
Qed.

End MoreProperties.

(** * The properties at the scenario *)

Ltac reach :=
  repeat first
    [ apply reachable_init
    | apply reachable_create_game
    | apply reachable_join_game
    | apply reachable_start_game ].

Lemma reachable_joined : reachable Scenario.editions_data Scenario.joined.
Proof. unfold Scenario.joined, Scenario.created, Scenario.start. reach. Qed.

Lemma reachable_started : reachable Scenario.editions_data Scenario.started.
Proof. unfold Scenario.started. apply reachable_start_game, reachable_joined. Qed.

Lemma reachable_joined3 : reachable Scenario.editions_data Scenario.joined3.
Proof. unfold Scenario.joined3. reach. Qed.

Lemma reachable_started3 : reachable Scenario.editions_data Scenario.started3.
Proof. unfold Scenario.started3. apply reachable_start_game, reachable_joined3. Qed.

Lemma catalog_ok :
  map_Forall (λ _ edition_data, edition_ok edition_data) Scenario.editions_data.
Proof. apply (bool_decide_unpack _). by vm_compute. Qed.

Lemma reachable_joined1 : reachable Scenario.editions_data Scenario.joined1.
Proof. unfold Scenario.joined1. reach. Qed.

Lemma games_started :
  games Scenario.started !! "g1" = Some Scenario.game1_started.
Proof. vm_compute. reflexivity. Qed.

Lemma games_joined3 : games Scenario.joined3 !! "g2" = Some Scenario.game2.
Proof. vm_compute. reflexivity. Qed.

(** Three players, and a distribution for three that the catalog serves
    with two characters: the call succeeds, Dan has the first character, Erin
    the second, Frank none. *)
Lemma start_game_assigns_witness :
  ∃ game' w',
    start_game Scenario.editions_data "g2" 3 Scenario.joined3 = (Ok game', w') ∧
    Game.started game' = true ∧
    Game.player_count game' = Some 3%Z ∧
    ∀ i p, participants Scenario.game2 !! i = Some p →
      ∃ p', participants game' !! i = Some p' ∧
            Player.id p' = Player.id p ∧
            Player.name p' = Player.name p ∧
            Player.character p' = [Scenario.butler; Scenario.imp] !! i.
Proof.
  destruct (start_game_assigns Scenario.editions_data "g2" 3 Scenario.joined3
              Scenario.game2 reachable_joined3 games_joined3) as [Hpost Hsucc].
  assert (draw_characters Scenario.editions_data "trouble-brewing" 3
            Scenario.joined3
          = (Ok [Scenario.butler; Scenario.imp],
             {| games := games Scenario.joined3; random := [6; 0; 9] |}))
    as Hdraw0 by (vm_compute; reflexivity).
  destruct (Hsucc _ _ eq_refl eq_refl Hdraw0) as [game' Hstart].
  destruct (Hpost _ _ Hstart)
    as (characters & w1 & Hdraw & _ & _ & Hstarted & Hcount & _ & Hzip).
  assert (characters = [Scenario.butler; Scenario.imp]) as ->.
  { vm_compute in Hdraw. by injection Hdraw as <- _. }
  eexists _, _. split_and!; [exact Hstart|done..].
Defined.

(** The second game has three players to deal to and two characters drawn:
    two players have a character, and their characters differ in their
    identifiers. *)
Lemma start_game_characters_unique_witness :
  length (filter (λ p, is_Some (Player.character p))
            (Game.players Scenario.game2_started)) = 2 ∧
  ∀ i j p q c d,
    Game.players Scenario.game2_started !! i = Some p →
    Game.players Scenario.game2_started !! j = Some q →
    Player.character p = Some c → Player.character q = Some d →
    Character.id c = Character.id d →
    i = j.
Proof.
  destruct (start_game_characters_unique Scenario.editions_data "g2" 3
              Scenario.joined3 Scenario.game2_started Scenario.started3
              reachable_joined3 catalog_ok)
    as (_ & (game & characters & w1 & Hgame & Hdraw & Hlen) & Hunique).
  { vm_compute. reflexivity. }
  split; [|exact Hunique]. rewrite Hlen.
  rewrite games_joined3 in Hgame. injection Hgame as <-.
  vm_compute in Hdraw. by injection Hdraw as <- _.
Defined.

(** A second start of the first game. *)
Lemma start_game_rejects_witness :
  raises (start_game Scenario.editions_data "g1" 7) Scenario.started
    (ValueError AlreadyStarted) InvalidState.
Proof.
  apply (proj2 (start_game_rejects Scenario.editions_data "g1" 2 Scenario.joined)
           Scenario.game1_started).
  vm_compute. reflexivity.
Defined.

(** The night order of the first game: nobody acts in the first night, the
    Monk acts before the Imp in the other nights. *)
Lemma get_night_order_spec_witness :
  ∃ first other,
    get_night_order "g1" Scenario.started =
      (Ok (NightOrder.mk
             ((λ c, NightEntry.mk (Character.name c) (Character.ability c)
                      (Character.first_night c)) <$> first)
             ((λ c, NightEntry.mk (Character.name c) (Character.ability c)
                      (Character.other_nights c)) <$> other)), Scenario.started) ∧
    night_list Character.first_night [Scenario.imp; Scenario.monk] first ∧
    night_list Character.other_nights [Scenario.imp; Scenario.monk] other.
Proof.
  exact (get_night_order_spec "g1" Scenario.started Scenario.game1_started
           games_started).
Defined.

(** The distribution for three players: one outsider where two are asked
    for, and the demon. *)
Lemma select_random_characters_spec_witness :
  ∃ chunks w',
    _select_random_characters Scenario.editions_data "trouble-brewing"
      [("outsiders", 2%Z); ("demons", 1%Z)] Scenario.joined3
      = (Ok (mjoin chunks), w') ∧
    games w' = games Scenario.joined3 ∧
    Forall2 (category_chunk (edition_characters Scenario.trouble_brewing))
      [("outsiders", 2%Z); ("demons", 1%Z)] chunks.
Proof.
  destruct (select_random_characters_spec Scenario.editions_data "trouble-brewing"
              Scenario.trouble_brewing [("outsiders", 2%Z); ("demons", 1%Z)]
              Scenario.joined3)
    as (chunks & w' & Hsel & Hgames & Hchunks & _).
  { reflexivity. }
  { repeat constructor; simpl; try (eexists; vm_compute; reflexivity); lia. }
  exists chunks, w'. split_and!; [exact Hsel|exact Hgames|exact Hchunks].
Defined.

(** Bob joins the first game before it is started. *)
Lemma join_game_spec_witness :
  ∃ player game' w',
    join_game "bob" "g1" "Bob" Scenario.created = (Ok player, w') ∧
    player = Player.mk "bob" "Bob" None false ∧
    Game.players game' = [Player.mk "alice" "Alice" None true; player].
Proof.
  pose proof (join_game_spec "bob" "g1" "Bob" Scenario.created) as H.
  assert (games Scenario.created !! "g1"
          = Some (Game.mk "g1" "trouble-brewing"
                    [Player.mk "alice" "Alice" None true] false None)) as Hgame
    by (vm_compute; reflexivity).
  rewrite Hgame in H. simpl in H.
  destruct H as (player & game' & w' & Hjoin & Hplayer & _ & _ & Hplayers & _).
  exists player, game', w'. split_and!; [exact Hjoin|exact Hplayer|exact Hplayers].
Defined.

(** The first game, started: Bob is refused the overview, Alice gets it,
    with the night order. *)
Lemma get_storyteller_overview_spec_witness :
  raises (get_storyteller_overview "g1" "bob") Scenario.started
    (ValueError StorytellerOnly) Forbidden ∧
  ∃ overview night_order,
    get_storyteller_overview "g1" "alice" Scenario.started
      = (Ok overview, Scenario.started) ∧
    Overview.started overview = true ∧
    Overview.night_order overview = Some night_order.
Proof.
  split.
  - apply (proj1 (get_storyteller_overview_spec "g1" "bob" Scenario.started
                    Scenario.game1_started games_started)).
    repeat constructor; simpl; done.
  - destruct (proj2 (get_storyteller_overview_spec "g1" "alice" Scenario.started
                       Scenario.game1_started games_started))
      as (overview & Hoverview & _ & _ & Hstarted & _ & Hnight).
    { apply Exists_cons_hd. done. }
    destruct Hnight as (night_order & _ & Hnight).
    exists overview, night_order. split_and!; [exact Hoverview|exact Hstarted|exact Hnight].
Defined.

(** Bob's role in the first game, started. *)
Lemma get_player_role_spec_witness :
  get_player_role "g1" "bob" Scenario.started
    = (Ok (Some Scenario.imp), Scenario.started).
Proof.
  destruct (get_player_role_spec "g1" "bob" Scenario.started)
    as (role & Hrole & Hmatch).
  rewrite games_started in Hmatch. destruct Hmatch as [_ Hfirst].
  rewrite Hrole. f_equal. f_equal.
  apply (Hfirst 1 (Player.mk "bob" "Bob" (Some Scenario.imp) false));
    [reflexivity|reflexivity|].
  intros [|j] q Hj Hq; [|lia]. by injection Hq as <-.
Defined.

(** The third game has one player; the distribution for one player makes the
    selection raise after it has drawn a townsfolk; the games are as before. *)
Lemma mutating_operations_atomic_witness :
  ∃ w',
    start_game Scenario.editions_data "g3" 1 Scenario.joined1
      = (Raise (KeyError "travellers"), w') ∧
    random Scenario.joined1 = [6; 0; 9] ∧
    random w' = [0; 9] ∧
    games w' = games Scenario.joined1.
Proof.
  exists {| games := games Scenario.joined1; random := [0; 9] |}.
  assert (start_game Scenario.editions_data "g3" 1 Scenario.joined1
          = (Raise (KeyError "travellers"),
             {| games := games Scenario.joined1; random := [0; 9] |})) as Hstart
    by (vm_compute; reflexivity).
  split_and!; [exact Hstart|vm_compute; reflexivity|reflexivity|].
  exact (proj2 (proj2 (mutating_operations_atomic Scenario.editions_data
                         Scenario.joined1 (KeyError "travellers") _))
           "g3" 1%Z Hstart).
Defined.

(** Alice, the storyteller of the first game, after its start. *)
Lemma storyteller_has_no_character_witness :
  Player.character (Player.mk "alice" "Alice" None true) = None ∧
  get_player_role "g1" "alice" Scenario.started = (Ok None, Scenario.started).
Proof.
  apply (storyteller_has_no_character Scenario.editions_data Scenario.started
           "g1" Scenario.game1_started (Player.mk "alice" "Alice" None true)).
  - apply reachable_started.
  - apply games_started.
  - apply list_elem_of_here.
  - reflexivity.
Defined.

(** * The further properties at the scenario *)

Lemma games_started3 :
  games Scenario.started3 !! "g2" = Some Scenario.game2_started.
Proof. vm_compute. reflexivity. Qed.

Lemma games_joined : games Scenario.joined !! "g1" = Some Scenario.game1.
Proof. vm_compute. reflexivity. Qed.

Lemma editions_trouble_brewing :
  Scenario.editions_data !! "trouble-brewing" = Some Scenario.trouble_brewing.
Proof. reflexivity. Qed.

(** Alice creates the first game. *)
Lemma create_game_get_game_witness :
  get_game "g1" Scenario.created
    = (Ok (Some (Game.mk "g1" "trouble-brewing"
                   [Player.mk "alice" "Alice" None true] false None)),
       Scenario.created) ∧
  random Scenario.created = random Scenario.start.
Proof.
  destruct (create_game_get_game Scenario.editions_data "g1" "alice"
              "trouble-brewing" "Alice" Scenario.start
              (Game.mk "g1" "trouble-brewing"
                 [Player.mk "alice" "Alice" None true] false None)
              Scenario.created)
    as (Hget & _ & _ & Hrandom); [reflexivity|].
  split; [exact Hget|exact Hrandom].
Defined.

(** The second game, started for its three players. *)
Lemma reachable_game_recorded_witness :
  Game.id Scenario.game2_started = "g2" ∧
  Game.player_count Scenario.game2_started = Some 3%Z.
Proof.
  destruct (reachable_game_recorded Scenario.editions_data Scenario.started3
              "g2" Scenario.game2_started reachable_started3 games_started3)
    as (Hid & _ & Hcount).
  split; [exact Hid|exact Hcount].
Defined.

(** Bob has joined; the game is not started. *)
Lemma unstarted_game_no_roles_witness :
  get_player_role "g1" "bob" Scenario.joined = (Ok None, Scenario.joined).
Proof.
  exact (unstarted_game_no_roles Scenario.editions_data Scenario.joined "g1"
           Scenario.game1 "bob" reachable_joined games_joined eq_refl).
Defined.

(** The first game can be started for its two players. *)
Lemma start_game_succeeds_witness :
  ∃ game' w',
    start_game Scenario.editions_data "g1" 2 Scenario.joined = (Ok game', w') ∧
    games w' = <["g1" := game']> (games Scenario.joined) ∧
    Game.started game' = true.
Proof.
  apply (start_game_succeeds Scenario.editions_data "g1" 2 Scenario.joined
           Scenario.game1 Scenario.trouble_brewing
           [("townsfolk", 1%Z); ("demons", 1%Z)]).
  - apply games_joined.
  - reflexivity.
  - reflexivity.
  - reflexivity.
  - vm_compute. reflexivity.
  - apply (bool_decide_unpack _). by vm_compute.
Defined.

(** Nobody has joined the first game yet, and the edition has no
    distribution for no players. *)
Lemma start_game_invalid_count_witness :
  raises (start_game Scenario.editions_data "g1" 0) Scenario.created
    (ValueError (InvalidPlayerCount 0)) InvalidArgument.
Proof.
  apply (start_game_invalid_count Scenario.editions_data "g1" 0 Scenario.created
           (Game.mk "g1" "trouble-brewing"
              [Player.mk "alice" "Alice" None true] false None)
           Scenario.trouble_brewing).
  - vm_compute. reflexivity.
  - reflexivity.
  - reflexivity.
  - reflexivity.
  - vm_compute. reflexivity.
Defined.

(** After a townsfolk has been drawn: a category that the catalog does not
    have, a negative count, and a category with a pool that is not one of
    [CharacterType]. *)
Lemma select_random_characters_errors_witness :
  (∃ w', _select_random_characters Scenario.editions_data "trouble-brewing"
           ([("townsfolk", 1%Z)] ++ [("travellers", 1%Z)]) Scenario.joined1
         = (Raise (KeyError "travellers"), w') ∧
         games w' = games Scenario.joined1) ∧
  (∃ w', _select_random_characters Scenario.editions_data "trouble-brewing"
           ([("townsfolk", 1%Z)] ++ [("demons", (-1)%Z)]) Scenario.joined1
         = (Raise (ValueError SampleOutOfRange), w') ∧
         games w' = games Scenario.joined1) ∧
  (∃ w', _select_random_characters Odd.editions_data "odd"
           ([("townsfolk", 1%Z)] ++ [("travellers", 1%Z)]) Scenario.joined1
         = (Raise ValidationError, w') ∧
         games w' = games Scenario.joined1).
Proof.
  split_and!.
  - apply (proj1 (select_random_characters_errors Scenario.editions_data
                    "trouble-brewing" Scenario.trouble_brewing
                    [("townsfolk", 1%Z)] "travellers" 1 [] Scenario.joined1
                    editions_trouble_brewing
                    ltac:(apply (bool_decide_unpack _); by vm_compute))).
    vm_compute. reflexivity.
  - apply (proj1 (proj2 (select_random_characters_errors Scenario.editions_data
                    "trouble-brewing" Scenario.trouble_brewing
                    [("townsfolk", 1%Z)] "demons" (-1) [] Scenario.joined1
                    editions_trouble_brewing
                    ltac:(apply (bool_decide_unpack _); by vm_compute)))).
    + eexists. vm_compute. reflexivity.
    + lia.
  - apply (proj2 (proj2 (select_random_characters_errors Odd.editions_data
                    "odd" Odd.edition
                    [("townsfolk", 1%Z)] "travellers" 1 [] Scenario.joined1
                    eq_refl
                    ltac:(apply (bool_decide_unpack _); by vm_compute)))
             [Scenario.entry "thief" "Thief" 0 1]).
    + vm_compute. reflexivity.
    + done.
    + lia.
    + vm_compute. reflexivity.
Defined.

(** A count of 0 for a category that is not one of [CharacterType], and a
    count of 3 for an empty category. *)
Lemma select_random_characters_nothing_witness :
  _select_random_characters Odd.editions_data "odd"
    [("travellers", 0%Z); ("outsiders", 3%Z)] Scenario.joined1
  = (Ok [], Scenario.joined1).
Proof.
  apply (select_random_characters_nothing Odd.editions_data "odd" Odd.edition).
  - reflexivity.
  - constructor; [|constructor; [|constructor]].
    + exists [Scenario.entry "thief" "Thief" 0 1].
      split; [vm_compute; reflexivity|]. by left.
    + exists []. split; [vm_compute; reflexivity|]. right. split; [simpl; lia|done].
Defined.

(** Three players, and a distribution that yields two characters. *)
Lemma start_game_assigned_count_witness :
  supply (edition_characters Scenario.trouble_brewing)
    [("outsiders", 2%Z); ("demons", 1%Z)] = 2 ∧
  length (characters_in_game Scenario.game2_started) = 3 `min` 2.
Proof.
  split; [reflexivity|].
  exact (proj1 (start_game_assigned_count Scenario.editions_data "g2" 3
                  Scenario.joined3 Scenario.game2 Scenario.game2_started
                  Scenario.started3 Scenario.trouble_brewing
                  [("outsiders", 2%Z); ("demons", 1%Z)]
                  reachable_joined3 games_joined3
                  ltac:(vm_compute; reflexivity) eq_refl
                  ltac:(vm_compute; reflexivity))).
Defined.

(** Bob's Imp is in the listing of the edition. *)
Lemma reachable_characters_listed_witness :
  ∃ listing,
    get_edition_characters Scenario.editions_data "trouble-brewing"
      Scenario.started = (Ok listing, Scenario.started) ∧
    listed listing Scenario.imp.
Proof.
  apply (reachable_characters_listed Scenario.editions_data Scenario.started
           "g1" Scenario.game1_started
           (Player.mk "bob" "Bob" (Some Scenario.imp) false) Scenario.imp).
  - apply reachable_started.
  - apply games_started.
  - apply list_elem_of_further, list_elem_of_here.
  - reflexivity.
Defined.


Lemma reachable_served_joined : reachable Served.editions_data Served.joined.
Proof. unfold Served.joined, Scenario.start. reach. Qed.

Lemma served_catalog : catalog_served Served.editions_data.
Proof. apply (bool_decide_unpack _). by vm_compute. Qed.

(** With the catalog that can be served, a start for a count that does not
    match is answered with 400 and leaves everything as it was. *)
Lemma api_start_game_served_witness :
  ∃ r w',
    api_start_game Served.editions_data "g1" 5 Served.joined = (r, w') ∧
    ((∃ body, r = Respond body) ∨
     (∃ msg, r = HTTPException 400 (str (ValueError msg)) ∧ w' = Served.joined)).
Proof.
  exact (api_start_game_served Served.editions_data "g1" 5 Served.joined
           reachable_served_joined served_catalog).
Defined.

(** Alice, the storyteller of the started first game, asks for her role. *)
Lemma api_get_player_role_not_found_witness :
  api_get_player_role "g1" "alice" Scenario.started
    = (HTTPException 404 (Literal "Rolle nicht gefunden"), Scenario.started).
Proof.
  apply (api_get_player_role_not_found Scenario.editions_data "g1" "alice"
           Scenario.started reachable_started).
  rewrite games_started. right; right. apply Exists_cons_hd. done.
Defined.

(** The first game, started, while the third game is joined and a start of
    the second is tried. *)
Lemma started_game_frozen_witness :
  games (join_game "ivy" "g3" "Ivy" Scenario.started).2 !! "g1"
    = Some Scenario.game1_started ∧
  games (start_game Scenario.editions_data "g1" 2 Scenario.started).2 !! "g1"
    = Some Scenario.game1_started.
Proof.
  destruct (started_game_frozen Scenario.editions_data Scenario.started "g1"
              Scenario.game1_started games_started eq_refl) as [Hjoin Hstart].
  split; [apply Hjoin|apply Hstart].
Defined.
